(** * WebRTC signalling relay and participant call context

    A shallow embedding of

    - [api/sockets/videoCallSocketHandler.js]: the Socket.IO signalling
      relay ([Module Relay]);
    - the React context provider [ContextProvider] (the file imported as
      [context/Context]): the participant side call state and its
      socket, peer and UI handlers ([Module Participant]), together
      with [closeVideo] of the video player.

    Conventions.

    - Wire values that the code never inspects (signal blobs, names, ids
      read off an incoming packet) are JavaScript values [JsVal]; socket
      ids held by the relay are strings. A string is the UTF-8 form of
      the JavaScript string.
    - The relay is a function from its state and an input to a new state
      and the list of deliveries it makes. Socket.IO's own table of
      sockets is part of that state.
    - A participant handler is a computation over the provider's state
      that logs its calls into the collaborators (socket, peer, tracks,
      [alert]) and may throw; [try]/[catch] is modelled as written.
      Which collaborator calls throw is a parameter ([Collab]).
    - Events reach a participant one at a time, and the component has
      rendered (so the ref-copying effects have run) before the next
      one. State setters are applied in program order.
    - A closure sees the [stream] and [userStream] of the render that
      created it. The functions handed out through the context are
      those of the current render; the socket listeners are registered
      once, by the mount effect, and keep the closures of the first
      render.
    - Console output, the mount and unmount plumbing (status polling,
      hot reload, [cleanup]) and the legacy refs are left out. *)

From stdpp Require Import gmap strings list fin_maps.

Open Scope string_scope.
Open Scope list_scope.

(** ** JavaScript values carried on the wire *)

#[warnings="-register-all"] Inductive JsVal : Type :=
| JUndefined
| JNull
| JBool (b : bool)
| JNum (n : Z)
| JStr (s : string)
| JObj (fields : list (string * JsVal)).

(** [!v] is [negb (truthy v)]: [undefined], [null], [false], [0] and the
    empty string are the falsy values that can occur here (numbers are
    kept as integers, nothing computes with them). *)
Definition truthy (v : JsVal) : bool :=
  match v with
  | JUndefined | JNull => false
  | JBool b => b
  | JNum n => negb (n =? 0)%Z
  | JStr s => negb (String.eqb s "")
  | JObj _ => true
  end.

(** * The relay *)

Module Relay.

(** The value stored by [connectedUsers.set(socket.id, {...})]. *)
Record ConnInfo := mkConnInfo {
  connectedAt : string;
  socketId : string
}.

(** Events the relay emits to clients. *)
Inductive Event :=
| Me (id : string)
| CallUser (signal from name : JsVal)
| CallAccepted (signal : JsVal)
| CallEnded (disconnectedUserId : string)
| CallError (message : string).

(** One delivery: the receiving socket id and the event. *)
Definition Delivery : Type := string * Event.

(** [sockets] is the key set of [io.sockets.sockets], the table Socket.IO
    keeps of the sockets of the namespace; [connectedUsers] is the
    handler's own [Map]. *)
Record State := mkState {
  sockets : gset string;
  connectedUsers : gmap string ConnInfo
}.

Definition init : State := mkState ∅ ∅.

(** [io.sockets.sockets.has(x)]: the keys are socket ids, which are
    strings, so any other value is not a key. *)
Definition has_socket (st : State) (x : JsVal) : bool :=
  match x with
  | JStr s => bool_decide (s ∈ sockets st)
  | _ => false
  end.

(** [connectedUsers.has(id)]. *)
Definition tracked (st : State) (id : string) : bool :=
  bool_decide (is_Some (connectedUsers st !! id)).

(** [socket.emit(ev)]: to the socket itself. *)
Definition socket_emit (sock : string) (ev : Event) : list Delivery :=
  [(sock, ev)].

(** [io.to(room).emit(ev)]: the handler never calls [socket.join], so the
    room named [room] holds the socket with that id, if it is there. *)
Definition io_to_emit (st : State) (room : string) (ev : Event) : list Delivery :=
  if bool_decide (room ∈ sockets st) then [(room, ev)] else [].

(** [socket.broadcast.emit(ev)]: every socket of the namespace but the
    sender. *)
Definition broadcast_emit (st : State) (sock : string) (ev : Event) : list Delivery :=
  (λ r, (r, ev)) <$> elements (sockets st ∖ {[sock]}).

(** Socket.IO's own bookkeeping around the two lifecycle events: the
    socket is in [io.sockets.sockets] when ["connection"] fires and has
    left it when ["disconnect"] fires. *)
Definition sio_add (id : string) (st : State) : State :=
  mkState ({[id]} ∪ sockets st) (connectedUsers st).

Definition sio_remove (id : string) (st : State) : State :=
  mkState (sockets st ∖ {[id]}) (connectedUsers st).

(** [io.on("connection", socket => ...)]: the body up to the listener
    registrations. [now] is [new Date().toISOString()]. *)
Definition on_connection (id now : string) (st : State) : State * list Delivery :=
  let st' := mkState (sockets st) (<[id := mkConnInfo now id]> (connectedUsers st)) in
  (st', socket_emit id (Me id)).

(** [socket.on("disconnect", ...)]. *)
Definition on_disconnect (id : string) (st : State) : State * list Delivery :=
  let st' := mkState (sockets st) (delete id (connectedUsers st)) in
  (st', broadcast_emit st' id (CallEnded id)).

(** The packet of a ["callUser"] event, after destructuring. *)
Record CallUserData := mkCallUserData {
  userToCall : JsVal;
  signalData : JsVal;
  from : JsVal;
  name : JsVal
}.

(** [socket.on("callUser", ...)]. *)
Definition on_callUser (sock : string) (d : CallUserData) (st : State)
  : State * list Delivery :=
  if negb (has_socket st (userToCall d)) then
    (st, socket_emit sock (CallError "User not found or disconnected"))
  else
    match userToCall d with
    | JStr room => (st, io_to_emit st room (CallUser (signalData d) (from d) (name d)))
    | _ => (st, [])
    end.

(** The packet of an ["answerCall"] event. *)
Record AnswerData := mkAnswerData {
  to : JsVal;
  signal : JsVal
}.

(** [socket.on("answerCall", ...)]. *)
Definition on_answerCall (sock : string) (d : AnswerData) (st : State)
  : State * list Delivery :=
  if negb (has_socket st (to d)) then
    (st, socket_emit sock (CallError "Caller disconnected"))
  else
    match to d with
    | JStr room => (st, io_to_emit st room (CallAccepted (signal d)))
    | _ => (st, [])
    end.

(** What reaches the relay. *)
Inductive Input :=
| Connect (id now : string)
| Disconnect (id : string)
| InCallUser (sock : string) (d : CallUserData)
| InAnswerCall (sock : string) (d : AnswerData).

Definition step (i : Input) (st : State) : State * list Delivery :=
  match i with
  | Connect id now => on_connection id now (sio_add id st)
  | Disconnect id => on_disconnect id (sio_remove id st)
  | InCallUser sock d => on_callUser sock d st
  | InAnswerCall sock d => on_answerCall sock d st
  end.

Fixpoint run (ins : list Input) (st : State) : State * list Delivery :=
  match ins with
  | [] => (st, [])
  | i :: rest =>
      let '(st1, out1) := step i st in
      let '(st2, out2) := run rest st1 in
      (st2, out1 ++ out2)
  end.

(** The registry operations of a trace, seen from outside: [id] is
    currently registered when some connection of [id] is followed by no
    disconnection of [id]. *)
Definition registered (id : string) (ins : list Input) : Prop :=
  ∃ pre now post,
    ins = pre ++ Connect id now :: post ∧ ∀ i, i ∈ post → i ≠ Disconnect id.

(** No disconnection of [id] in [ins]. *)
Definition quiet_after (id : string) (ins : list Input) : Prop :=
  ∀ i, i ∈ ins → i ≠ Disconnect id.

(** The handler's map and Socket.IO's table list the same ids. *)
Definition consistent (st : State) : Prop :=
  dom (connectedUsers st) = sockets st.

(** A relay with two clients, ["A1"] and ["B2"], and the envelopes of
    the happy path. *)
Definition two_clients : State :=
  (run [Connect "A1" "2025-01-01T00:00:00.000Z";
        Connect "B2" "2025-01-01T00:00:01.000Z"] init).1.

Definition offer_to_B2 : CallUserData :=
  mkCallUserData (JStr "B2") (JStr "OFFER-XYZ") (JStr "A1") (JStr "Alice").

Definition answer_to_A1 : AnswerData :=
  mkAnswerData (JStr "A1") (JStr "ANSWER-XYZ").

Definition offer_to_gone : CallUserData :=
  mkCallUserData (JStr "Z9") (JStr "OFFER-XYZ") (JStr "A1") (JStr "Alice").

(** ** Further vocabulary for the relay *)

(** The inputs that touch the registry. *)
Definition lifecycle (i : Input) : bool :=
  match i with
  | Connect _ _ | Disconnect _ => true
  | InCallUser _ _ | InAnswerCall _ _ => false
  end.

(** Every record of [connectedUsers] carries its own key as
    [socketId]. *)
Definition keyed (st : State) : Prop :=
  ∀ id info, connectedUsers st !! id = Some info → socketId info = id.

(** The socket a request comes in on is connected. *)
Definition sender_live (st : State) (i : Input) : Prop :=
  match i with
  | InCallUser sock _ | InAnswerCall sock _ => sock ∈ sockets st
  | Connect _ _ | Disconnect _ => True
  end.

(** [id] was last connected at [now], and has not been disconnected
    since. *)
Definition latest_connect (id now : string) (ins : list Input) : Prop :=
  ∃ pre post,
    ins = pre ++ Connect id now :: post ∧
    ∀ i, i ∈ post → i ≠ Disconnect id ∧ ∀ now', i ≠ Connect id now'.

(** A relay with three clients. *)
Definition three_clients : State :=
  (run [Connect "A1" "t0"; Connect "B2" "t1"; Connect "C3" "t2"] init).1.

End Relay.

(** * The participant *)

Module Participant.

(** ** Media, peers and what the provider does to the outside *)

Record Track := mkTrack {
  track_id : nat;
  kind : string
}.

(** A [MediaStream], seen through [getTracks()]. *)
Record Stream := mkStream {
  stream_id : nat;
  getTracks : list Track
}.

(** The [call] state: [{}] or the record stored by the ["callUser"]
    listener, [{isReceivingCall: true, from, name, signal}]. *)
Inductive Call :=
| NoCall
| Incoming (from name signal : JsVal).

Definition isReceivingCall (c : Call) : bool :=
  match c with NoCall => false | Incoming _ _ _ => true end.

Definition call_signal (c : Call) : JsVal :=
  match c with NoCall => JUndefined | Incoming _ _ s => s end.

Definition call_from (c : Call) : JsVal :=
  match c with NoCall => JUndefined | Incoming f _ _ => f end.

Inductive ConnStatus := disconnected | connecting | connected | error.

(** The values a [handleCallEnd] closure has captured: [stream] and
    [userStream] of the render that created it (its [useCallback]
    dependencies). *)
Record Captured := mkCaptured {
  cap_stream : option Stream;
  cap_userStream : option Stream
}.

(** The listeners [callUser] and [answerCall] attach to the peer they
    create, with the values those closures captured. *)
Inductive Listeners :=
| CallerListeners (id me name : string) (hce : Captured)
| AnswererListeners (from : JsVal) (hce : Captured).

(** A [simple-peer] instance: its constructor options and listeners. *)
Record Peer := mkPeer {
  initiator : bool;
  trickle : bool;
  peer_stream : Stream;
  listeners : Listeners
}.

(** What the provider sends on the socket. *)
Inductive Emit :=
| EmitCallUser (userToCall : string) (signalData : JsVal) (from name : string)
| EmitAnswerCall (signal : JsVal) (to : JsVal).

(** Calls into the collaborators, in program order. Console output is
    diagnostic only and is left out. *)
Inductive Effect :=
| SocketEmit (e : Emit)
| NewPeer (p : nat)
| PeerSignal (p : nat) (v : JsVal)
| PeerDestroy (p : nat)
| TrackStop (t : Track)
| Alert (msg : string).

(** ** The provider's state

    The nine [useState] cells in use, the refs, and the peers created so
    far ([connectionRef.current] is an index into [peers]). *)
Record Ctx := mkCtx {
  callAccepted : bool;
  callEnded : bool;
  call : Call;
  stream : option Stream;
  userStream : option Stream;
  name : string;
  me : string;
  connectionStatus : ConnStatus;
  isCalling : bool;
  connectionRef : option nat;
  callAcceptedRef : bool;
  callRef : Call;
  userStreamRef : option Stream;
  peers : list Peer
}.

(** The first render. *)
Definition init : Ctx :=
  {| callAccepted := false; callEnded := false; call := NoCall;
     stream := None; userStream := None; name := ""; me := "";
     connectionStatus := disconnected; isCalling := false;
     connectionRef := None;
     callAcceptedRef := false; callRef := NoCall; userStreamRef := None;
     peers := [] |}.

Definition with_callAccepted (b : bool) (c : Ctx) : Ctx :=
  mkCtx b (callEnded c) (call c) (stream c) (userStream c) (name c) (me c)
    (connectionStatus c) (isCalling c) (connectionRef c)
    (callAcceptedRef c) (callRef c) (userStreamRef c) (peers c).

Definition with_callEnded (b : bool) (c : Ctx) : Ctx :=
  mkCtx (callAccepted c) b (call c) (stream c) (userStream c) (name c) (me c)
    (connectionStatus c) (isCalling c) (connectionRef c)
    (callAcceptedRef c) (callRef c) (userStreamRef c) (peers c).

Definition with_call (x : Call) (c : Ctx) : Ctx :=
  mkCtx (callAccepted c) (callEnded c) x (stream c) (userStream c) (name c) (me c)
    (connectionStatus c) (isCalling c) (connectionRef c)
    (callAcceptedRef c) (callRef c) (userStreamRef c) (peers c).

Definition with_stream (x : option Stream) (c : Ctx) : Ctx :=
  mkCtx (callAccepted c) (callEnded c) (call c) x (userStream c) (name c) (me c)
    (connectionStatus c) (isCalling c) (connectionRef c)
    (callAcceptedRef c) (callRef c) (userStreamRef c) (peers c).

Definition with_userStream (x : option Stream) (c : Ctx) : Ctx :=
  mkCtx (callAccepted c) (callEnded c) (call c) (stream c) x (name c) (me c)
    (connectionStatus c) (isCalling c) (connectionRef c)
    (callAcceptedRef c) (callRef c) (userStreamRef c) (peers c).

Definition with_name (x : string) (c : Ctx) : Ctx :=
  mkCtx (callAccepted c) (callEnded c) (call c) (stream c) (userStream c) x (me c)
    (connectionStatus c) (isCalling c) (connectionRef c)
    (callAcceptedRef c) (callRef c) (userStreamRef c) (peers c).

Definition with_me (x : string) (c : Ctx) : Ctx :=
  mkCtx (callAccepted c) (callEnded c) (call c) (stream c) (userStream c) (name c) x
    (connectionStatus c) (isCalling c) (connectionRef c)
    (callAcceptedRef c) (callRef c) (userStreamRef c) (peers c).

Definition with_connectionStatus (x : ConnStatus) (c : Ctx) : Ctx :=
  mkCtx (callAccepted c) (callEnded c) (call c) (stream c) (userStream c) (name c) (me c)
    x (isCalling c) (connectionRef c)
    (callAcceptedRef c) (callRef c) (userStreamRef c) (peers c).

Definition with_isCalling (b : bool) (c : Ctx) : Ctx :=
  mkCtx (callAccepted c) (callEnded c) (call c) (stream c) (userStream c) (name c) (me c)
    (connectionStatus c) b (connectionRef c)
    (callAcceptedRef c) (callRef c) (userStreamRef c) (peers c).

Definition with_connectionRef (x : option nat) (c : Ctx) : Ctx :=
  mkCtx (callAccepted c) (callEnded c) (call c) (stream c) (userStream c) (name c) (me c)
    (connectionStatus c) (isCalling c) x
    (callAcceptedRef c) (callRef c) (userStreamRef c) (peers c).

Definition with_peers (x : list Peer) (c : Ctx) : Ctx :=
  mkCtx (callAccepted c) (callEnded c) (call c) (stream c) (userStream c) (name c) (me c)
    (connectionStatus c) (isCalling c) (connectionRef c)
    (callAcceptedRef c) (callRef c) (userStreamRef c) x.

(** The three [useEffect]s that copy [callAccepted], [call] and
    [userStream] into their refs after a render. *)
Definition commit (c : Ctx) : Ctx :=
  mkCtx (callAccepted c) (callEnded c) (call c) (stream c) (userStream c) (name c) (me c)
    (connectionStatus c) (isCalling c) (connectionRef c)
    (callAccepted c) (call c) (userStream c) (peers c).

Definition refs_synced (c : Ctx) : Prop :=
  callAcceptedRef c = callAccepted c ∧ callRef c = call c ∧
  userStreamRef c = userStream c.

(** ** Handlers as state, log and exception passing *)

Inductive Outcome (A : Type) :=
| Ret (a : A)
| Throw.
Arguments Ret {A} a.
Arguments Throw {A}.

Definition M (A : Type) : Type := Ctx → Outcome A * Ctx * list Effect.

Definition ret {A} (a : A) : M A := λ c, (Ret a, c, []).

Definition bind {A B} (m : M A) (k : A → M B) : M B := λ c,
  match m c with
  | (Ret a, c1, l1) =>
      match k a c1 with
      | (o, c2, l2) => (o, c2, l1 ++ l2)
      end
  | (Throw, c1, l1) => (Throw, c1, l1)
  end.

#[local] Notation "m1 ;; m2" := (bind m1 (λ _, m2))
  (at level 100, m2 at level 200, right associativity).
#[local] Notation "x <- m1 ;; m2" := (bind m1 (λ x, m2))
  (at level 100, m1 at next level, m2 at level 200, right associativity).

(** [try { body } catch (error) { handler }]. *)
Definition try_catch {A} (body handler : M A) : M A := λ c,
  match body c with
  | (Ret a, c1, l1) => (Ret a, c1, l1)
  | (Throw, c1, l1) =>
      match handler c1 with
      | (o, c2, l2) => (o, c2, l1 ++ l2)
      end
  end.

Definition get : M Ctx := λ c, (Ret c, c, []).
Definition modify (f : Ctx → Ctx) : M unit := λ c, (Ret tt, f c, []).
Definition effect (e : Effect) : M unit := λ c, (Ret tt, c, [e]).
Definition throw {A} : M A := λ c, (Throw, c, []).
Definition when (b : bool) (m : M unit) : M unit := if b then m else ret tt.

(** How the collaborators answer: which constructor, [signal],
    [destroy] and [stop] calls throw. [new_throws p] is asked for the
    peer that would become number [p]. *)
Record Collab := mkCollab {
  new_throws : nat → bool;
  signal_throws : nat → JsVal → bool;
  destroy_throws : nat → bool;
  stop_throws : Track → bool
}.

(** Collaborators that never throw. *)
Definition quiet : Collab :=
  mkCollab (λ _, false) (λ _ _, false) (λ _, false) (λ _, false).

Definition present {A} (o : option A) : bool :=
  match o with Some _ => true | None => false end.

(** *** White space, as [String.prototype.trim] sees it

    [trim] strips the code points of [WhiteSpace] and [LineTerminator]:
    U+0009 to U+000D, U+0020, U+00A0, U+1680, U+2000 to U+200A, U+2028,
    U+2029, U+202F, U+205F, U+3000 and U+FEFF. A string here is the
    UTF-8 form of the JavaScript string, which is how a string literal
    is read, so a white space character is one, two or three bytes. A
    byte 160 that stands alone, the no-break space of a string kept one
    byte per code unit, counts as white space as well; it occurs in no
    UTF-8 text. *)

(** U+0009 to U+000D and U+0020. *)
Definition is_space (a : Ascii.ascii) : bool :=
  let n := Ascii.nat_of_ascii a in
  Nat.eqb n 32 || (Nat.leb 9 n && Nat.leb n 13).

(** U+00A0 as a single code unit. *)
Definition is_nbsp_unit (a : Ascii.ascii) : bool :=
  Nat.eqb (Ascii.nat_of_ascii a) 160.

(** U+00A0, as [C2 A0]. *)
Definition is_space2 (a b : Ascii.ascii) : bool :=
  Nat.eqb (Ascii.nat_of_ascii a) 194 && Nat.eqb (Ascii.nat_of_ascii b) 160.

(** U+1680 ([E1 9A 80]); U+2000 to U+200A, U+2028, U+2029 and U+202F
    ([E2 80 80] to [E2 80 8A], [E2 80 A8], [E2 80 A9], [E2 80 AF]);
    U+205F ([E2 81 9F]); U+3000 ([E3 80 80]); U+FEFF ([EF BB BF]). *)
Definition is_space3 (a b c : Ascii.ascii) : bool :=
  let x := Ascii.nat_of_ascii a in
  let y := Ascii.nat_of_ascii b in
  let z := Ascii.nat_of_ascii c in
  (Nat.eqb x 225 && Nat.eqb y 154 && Nat.eqb z 128) ||
  (Nat.eqb x 226 && Nat.eqb y 128 &&
     ((Nat.leb 128 z && Nat.leb z 138) ||
      Nat.eqb z 168 || Nat.eqb z 169 || Nat.eqb z 175)) ||
  (Nat.eqb x 226 && Nat.eqb y 129 && Nat.eqb z 159) ||
  (Nat.eqb x 227 && Nat.eqb y 128 && Nat.eqb z 128) ||
  (Nat.eqb x 239 && Nat.eqb y 187 && Nat.eqb z 191).

(** [s.trim() === '']: [s] is made of white space only. *)
Fixpoint is_blank (s : string) : bool :=
  match s with
  | EmptyString => true
  | String a r =>
      if is_space a || is_nbsp_unit a then is_blank r
      else
        match r with
        | EmptyString => false
        | String b r1 =>
            if is_space2 a b then is_blank r1
            else
              match r1 with
              | EmptyString => false
              | String c r2 => is_space3 a b c && is_blank r2
              end
        end
  end.

(** A string from the codes of its bytes. *)
Definition of_bytes (l : list nat) : string :=
  foldr (λ n r, String (Ascii.ascii_of_nat n) r) EmptyString l.

(** The closure of [handleCallEnd] that the socket listeners and the
    unmount cleanup hold. [initializeSocket] runs once, from the mount
    effect, so the [handleCallEnd] it closes over is the one of the
    first render, where [stream] and [userStream] are the initial
    [null]. *)
Definition first_render : Captured :=
  mkCaptured (stream init) (userStream init).

(** The closure of the current render. *)
Definition this_render (c : Ctx) : Captured :=
  mkCaptured (stream c) (userStream c).

(** [callAcceptedRef.current || callRef.current?.isReceivingCall ||
     connectionRef.current || userStreamRef.current !== null]. *)
Definition isInCall (c : Ctx) : bool :=
  callAcceptedRef c || isReceivingCall (callRef c) ||
  present (connectionRef c) || present (userStreamRef c).

Section Handlers.

Context (K : Collab).

Definition track_stop (t : Track) : M unit :=
  effect (TrackStop t) ;; when (stop_throws K t) throw.

(** [tracks.forEach((track) => { track.stop(); })]. *)
Fixpoint stop_tracks (ts : list Track) : M unit :=
  match ts with
  | [] => ret tt
  | t :: rest => track_stop t ;; stop_tracks rest
  end.

Definition peer_destroy (p : nat) : M unit :=
  effect (PeerDestroy p) ;; when (destroy_throws K p) throw.

Definition peer_signal (p : nat) (v : JsVal) : M unit :=
  effect (PeerSignal p v) ;; when (signal_throws K p v) throw.

(** [new Peer({initiator, trickle, stream})] followed by the four
    [peer.on(...)] registrations. *)
Definition new_Peer (ini tr : bool) (s : Stream) (ls : Listeners) : M nat :=
  c <- get ;;
  let p := length (peers c) in
  when (new_throws K p) throw ;;
  modify (with_peers (peers c ++ [mkPeer ini tr s ls])) ;;
  effect (NewPeer p) ;;
  ret p.

(** [handleCallEnd], for a closure that captured [cap]. *)
Definition handleCallEnd (cap : Captured) : M unit :=
  modify (with_callEnded true) ;;
  modify (with_callAccepted false) ;;
  modify (with_isCalling false) ;;
  try_catch
    (c <- get ;;
     match connectionRef c with
     | Some p => peer_destroy p ;; modify (with_connectionRef None)
     | None => ret tt
     end ;;
     match cap_stream cap with
     | Some s => stop_tracks (getTracks s)
     | None => ret tt
     end ;;
     match cap_userStream cap with
     | Some s => stop_tracks (getTracks s)
     | None => ret tt
     end ;;
     modify (with_userStream None) ;;
     modify (with_call NoCall))
    (ret tt).

(** *** Socket listeners, registered by [initializeSocket] *)

Definition on_connect (socket_id : option string) : M unit :=
  modify (with_connectionStatus connected) ;;
  match socket_id with
  | Some id => when (negb (String.eqb id "")) (modify (with_me id))
  | None => ret tt
  end.

Definition on_disconnect (reason : string) : M unit :=
  when (negb (String.eqb reason "io client disconnect"))
    (modify (with_connectionStatus disconnected)).

Definition on_connect_error : M unit :=
  modify (with_connectionStatus error).

Definition on_me (id : string) : M unit :=
  when (negb (String.eqb id ""))
    (modify (with_me id) ;; modify (with_connectionStatus connected)).

Definition on_callUser (from callerName signal : JsVal) : M unit :=
  modify (with_call (Incoming from callerName signal)).

Definition on_callAccepted (signal : JsVal) : M unit :=
  modify (with_callAccepted true) ;;
  c <- get ;;
  match connectionRef c with
  | Some p => peer_signal p signal
  | None => ret tt
  end.

Definition on_callEnded (disconnectedUserId : JsVal) : M unit :=
  c <- get ;;
  if isInCall c then handleCallEnd first_render else ret tt.

Definition on_callError (message : string) : M unit :=
  effect (Alert ("Call error: " +:+ message)) ;;
  modify (with_isCalling false).

(** *** The functions handed out through the context *)

Definition answerCall : M unit :=
  c <- get ;;
  match stream c with
  | None => effect (Alert "Please enable your camera first!")
  | Some s =>
      if negb (truthy (call_signal (call c))) then ret tt
      else
        try_catch
          (modify (with_callAccepted true) ;;
           modify (with_isCalling false) ;;
           p <- new_Peer false false s
                  (AnswererListeners (call_from (call c)) (this_render c)) ;;
           peer_signal p (call_signal (call c)) ;;
           modify (with_connectionRef (Some p)))
          (effect (Alert "Failed to answer call. Please try again.") ;;
           handleCallEnd (this_render c))
  end.

Definition callUser (id : string) : M unit :=
  c <- get ;;
  if String.eqb id "" || is_blank id then ret tt
  else
    match stream c with
    | None => effect (Alert "Please enable your camera first!")
    | Some s =>
        if String.eqb id (me c) then effect (Alert "You cannot call yourself!")
        else
          try_catch
            (modify (with_isCalling true) ;;
             modify (with_callEnded false) ;;
             p <- new_Peer true false s
                    (CallerListeners id (me c) (name c) (this_render c)) ;;
             modify (with_connectionRef (Some p)))
            (effect (Alert "Failed to initiate call. Please try again.") ;;
             modify (with_isCalling false))
    end.

Definition leaveCall : M unit :=
  c <- get ;;
  handleCallEnd (this_render c).

(** [closeVideo] of the video player, the other place that stops the
    local tracks. *)
Definition closeVideo : M unit :=
  c <- get ;;
  try_catch
    (match stream c with
     | Some s => stop_tracks (getTracks s)
     | None => ret tt
     end ;;
     modify (with_stream None))
    (ret tt).

(** *** Peer listeners *)

Definition peer_on_signal (p : nat) (data : JsVal) : M unit :=
  c <- get ;;
  match listeners <$> peers c !! p with
  | Some (CallerListeners id me0 name0 _) =>
      effect (SocketEmit (EmitCallUser id data me0
                (if String.eqb name0 "" then "Anonymous" else name0)))
  | Some (AnswererListeners from _) =>
      effect (SocketEmit (EmitAnswerCall data from))
  | None => ret tt
  end.

Definition peer_on_stream (p : nat) (currentStream : Stream) : M unit :=
  c <- get ;;
  match peers c !! p with
  | Some _ => modify (with_userStream (Some currentStream))
  | None => ret tt
  end.

Definition peer_on_connect (p : nat) : M unit :=
  c <- get ;;
  match listeners <$> peers c !! p with
  | Some (CallerListeners _ _ _ _) => modify (with_isCalling false)
  | _ => ret tt
  end.

Definition peer_on_error (p : nat) : M unit :=
  c <- get ;;
  match listeners <$> peers c !! p with
  | Some (CallerListeners _ _ _ hce) =>
      effect (Alert "Connection error occurred. Please try again.") ;;
      modify (with_isCalling false) ;;
      handleCallEnd hce
  | Some (AnswererListeners _ hce) =>
      effect (Alert "Connection error occurred. Please try again.") ;;
      handleCallEnd hce
  | None => ret tt
  end.

(** ** Everything that can happen to a mounted provider *)

Inductive Event :=
| SockConnect (socket_id : option string)
| SockDisconnect (reason : string)
| SockConnectError
| SockMe (id : string)
| SockCallUser (from callerName signal : JsVal)
| SockCallAccepted (signal : JsVal)
| SockCallEnded (disconnectedUserId : JsVal)
| SockCallError (message : string)
| UiSetName (n : string)
| UiSetStream (s : option Stream)
| UiSetCallAccepted (b : bool)
| UiCloseVideo
| UiCallUser (id : string)
| UiAnswerCall
| UiLeaveCall
| PeerOnSignal (p : nat) (data : JsVal)
| PeerOnStream (p : nat) (s : Stream)
| PeerOnConnect (p : nat)
| PeerOnError (p : nat).

Definition handler (ev : Event) : M unit :=
  match ev with
  | SockConnect sid => on_connect sid
  | SockDisconnect reason => on_disconnect reason
  | SockConnectError => on_connect_error
  | SockMe id => on_me id
  | SockCallUser f n s => on_callUser f n s
  | SockCallAccepted s => on_callAccepted s
  | SockCallEnded d => on_callEnded d
  | SockCallError m => on_callError m
  | UiSetName n => modify (with_name n)
  | UiSetStream s => modify (with_stream s)
  | UiSetCallAccepted b => modify (with_callAccepted b)
  | UiCloseVideo => closeVideo
  | UiCallUser id => callUser id
  | UiAnswerCall => answerCall
  | UiLeaveCall => leaveCall
  | PeerOnSignal p d => peer_on_signal p d
  | PeerOnStream p s => peer_on_stream p s
  | PeerOnConnect p => peer_on_connect p
  | PeerOnError p => peer_on_error p
  end.

(** One event: the handler runs to completion (or throws), the
    component renders and its effects refresh the refs. *)
Definition step (ev : Event) (c : Ctx) : Ctx * list Effect :=
  match handler ev c with
  | (_, c', l) => (commit c', l)
  end.

Fixpoint run (evs : list Event) (c : Ctx) : Ctx * list Effect :=
  match evs with
  | [] => (c, [])
  | ev :: rest =>
      let '(c1, l1) := step ev c in
      let '(c2, l2) := run rest c1 in
      (c2, l1 ++ l2)
  end.

Definition reachable (c : Ctx) : Prop :=
  ∃ evs, (run evs init).1 = c.

End Handlers.

(** ** Vocabulary of the statements *)

(** Not in a call and not receiving one, read off the state cells. *)
Definition idle (c : Ctx) : Prop :=
  callAccepted c = false ∧ isReceivingCall (call c) = false ∧
  connectionRef c = None ∧ userStream c = None.

(** [destroy] and [stop] return normally. *)
Definition calm (K : Collab) : Prop :=
  (∀ p, destroy_throws K p = false) ∧ (∀ t, stop_throws K t = false).

Definition tracks_of (o : option Stream) : list Track :=
  match o with Some s => getTracks s | None => [] end.

(** The [destroy] call [handleCallEnd] makes in state [c]. *)
Definition destroyed (c : Ctx) : list Effect :=
  match connectionRef c with Some p => [PeerDestroy p] | None => [] end.

(** The state writes of a [handleCallEnd] that runs to its end. *)
Definition cleaned (c : Ctx) : Ctx :=
  with_call NoCall (with_userStream None (with_connectionRef None
    (with_isCalling false (with_callAccepted false (with_callEnded true c))))).

Definition only_alerts (l : list Effect) : Prop :=
  ∀ e, e ∈ l → ∃ msg, e = Alert msg.

Definition camera_alert : Effect := Alert "Please enable your camera first!".

(** Computations that never write the [stream] cell. *)
Definition keeps_stream {A} (m : M A) : Prop :=
  ∀ c, stream (m c).1.2 = stream c.

(** How often [stop()] is called on track [t] in a log. *)
Fixpoint stop_calls (t : nat) (l : list Effect) : nat :=
  match l with
  | [] => 0
  | TrackStop t' :: rest =>
      (if Nat.eqb (track_id t') t then 1 else 0) + stop_calls t rest
  | _ :: rest => stop_calls t rest
  end.

(** ** A call in progress

    Participant ["B2"] has its camera on, receives the offer of ["A1"],
    accepts it, sends its answer and gets the remote stream. *)
Definition t_video : Track := mkTrack 1 "video".
Definition t_audio : Track := mkTrack 2 "audio".
Definition t_remote : Track := mkTrack 3 "video".
Definition local_media : Stream := mkStream 1 [t_video; t_audio].
Definition remote_media : Stream := mkStream 2 [t_remote].

Definition answer_scenario : list Event :=
  [ UiSetStream (Some local_media);
    SockMe "B2";
    SockCallUser (JStr "A1") (JStr "Alice") (JStr "OFFER-XYZ");
    UiAnswerCall;
    PeerOnSignal 0 (JStr "ANSWER-XYZ");
    PeerOnStream 0 remote_media ].

Definition in_call : Ctx := (run quiet answer_scenario init).1.

(** ** Three statements in the wording they were given *)

(** Stale event suppression: a broadcast is acted on only when a call is
    in progress and the id it carries is the current peer, [call.from];
    otherwise it changes nothing. The provider keeps no phase cell: the
    phases from the sent or received offer up to the running call are
    the states in which [isInCall] holds. *)
Definition stale_filter_as_specified (K : Collab) (c : Ctx) (d : JsVal) : Prop :=
  ¬ (isInCall c = true ∧ d = call_from (call c)) →
  step K (SockCallEnded d) c = (c, []).


(** Hangup: the handle is destroyed, the local and remote tracks are
    stopped, a notice for the peer goes out on the socket, and the
    session is idle again. The participant cannot see whether its peer
    is still connected; the notice is asked for whenever a call is in
    progress. *)
Definition hangup_as_specified (K : Collab) (c : Ctx) : Prop :=
  (∀ p, connectionRef c = Some p → PeerDestroy p ∈ (step K UiLeaveCall c).2) ∧
  (∀ t, t ∈ tracks_of (stream c) ++ tracks_of (userStream c) →
        TrackStop t ∈ (step K UiLeaveCall c).2) ∧
  (isInCall c = true → ∃ e, SocketEmit e ∈ (step K UiLeaveCall c).2) ∧
  idle (step K UiLeaveCall c).1.

(** ** Further vocabulary for the participant *)

(** A computation keeps the state property [I] and logs only effects
    that satisfy [L], whether it returns or throws. *)
Definition sound {A} (I : Ctx → Prop) (L : Effect → Prop) (m : M A) : Prop :=
  ∀ c, I c → I (m c).1.2 ∧ Forall L (m c).2.

(** A computation never lets an exception out. *)
Definition returns (m : M unit) : Prop :=
  ∀ c, ∃ c' l, m c = (Ret tt, c', l).

(** [connectionRef.current], when set, is one of the peers created. *)
Definition well_formed (c : Ctx) : Prop :=
  ∀ p, connectionRef c = Some p → p < length (peers c).

(** Peer [p0] exists and [connectionRef.current] is no longer it. *)
Definition overwritten (p0 : nat) (c : Ctx) : Prop :=
  p0 < length (peers c) ∧ connectionRef c ≠ Some p0.

(** The listeners for the state of the socket itself. *)
Definition transport (ev : Event) : bool :=
  match ev with
  | SockConnect _ | SockDisconnect _ | SockConnectError | SockMe _ => true
  | _ => false
  end.

(** The [handleCallEnd] closure held by the ['error'] listener of a
    peer. *)
Definition hce_of (ls : Listeners) : Captured :=
  match ls with CallerListeners _ _ _ h | AnswererListeners _ h => h end.

(** The handlers that write the [stream] cell. *)
Definition writes_stream (ev : Event) : bool :=
  match ev with UiSetStream _ | UiCloseVideo => true | _ => false end.

Definition is_peer_signal (ev : Event) : bool :=
  match ev with PeerOnSignal _ _ => true | _ => false end.

(** What [I] and [L] must allow beyond the common setters for the
    handler of [ev] to be [sound]. *)
Definition side_condition (I : Ctx → Prop) (L : Effect → Prop) (ev : Event) : Prop :=
  match ev with
  | UiSetStream _ | UiCloseVideo => ∀ c s, I c → I (with_stream s c)
  | PeerOnSignal _ _ => ∀ e, L (SocketEmit e)
  | _ => True
  end.

Definition is_emit (e : Effect) : bool :=
  match e with SocketEmit _ => true | _ => false end.

Definition is_stop (e : Effect) : bool :=
  match e with TrackStop _ => true | _ => false end.

(** Two participants with the camera on: ["A1"], who has entered a name,
    and ["B2"]. *)
Definition cam_A : Stream := mkStream 10 [mkTrack 11 "video"; mkTrack 12 "audio"].
Definition cam_B : Stream := mkStream 20 [mkTrack 21 "video"; mkTrack 22 "audio"].

Definition ready_A : Ctx :=
  (run quiet [SockConnect (Some "A1"); SockMe "A1"; UiSetName "Alice";
              UiSetStream (Some cam_A)] init).1.

Definition ready_B : Ctx :=
  (run quiet [SockConnect (Some "B2"); SockMe "B2";
              UiSetStream (Some cam_B)] init).1.

End Participant.

(** * The wire between the two

    How an emission of one side is the input of the other, by event
    name and field names: the participant emits ['callUser'] with
    [{userToCall, signalData, from, name}] and ['answerCall'] with
    [{signal, to}]; the relay emits ["me"] with the id, ["callUser"]
    with [{signal, from, name}], ["callAccepted"] with the signal,
    ["callEnded"] with [{disconnectedUserId}] and ["callError"] with
    [{message}]. *)

Module Wire.

Definition to_relay (sock : string) (e : Participant.Emit) : Relay.Input :=
  match e with
  | Participant.EmitCallUser userToCall signalData from name =>
      Relay.InCallUser sock
        (Relay.mkCallUserData (JStr userToCall) signalData (JStr from) (JStr name))
  | Participant.EmitAnswerCall signal to =>
      Relay.InAnswerCall sock (Relay.mkAnswerData to signal)
  end.

Definition to_participant (ev : Relay.Event) : Participant.Event :=
  match ev with
  | Relay.Me id => Participant.SockMe id
  | Relay.CallUser signal from name => Participant.SockCallUser from name signal
  | Relay.CallAccepted signal => Participant.SockCallAccepted signal
  | Relay.CallEnded id => Participant.SockCallEnded (JStr id)
  | Relay.CallError message => Participant.SockCallError message
  end.

End Wire.

(** * Properties of the relay *)

Module RelayFacts.
Import Relay.

Lemma run_cons_fst i rest st :
  (run (i :: rest) st).1 = (run rest (step i st).1).1.
Proof.
  simpl. destruct (step i st) as [st1 o1]. simpl.
  destruct (run rest st1) as [st2 o2]. reflexivity.
Qed.

Lemma registered_nil id : ¬ registered id [].
Proof. intros (pre & now & post & H & _). destruct pre; discriminate. Qed.

Lemma registered_cons id i rest :
  registered id (i :: rest) ↔
  registered id rest ∨ ((∃ now, i = Connect id now) ∧ quiet_after id rest).
Proof.
  split.
  - intros (pre & now & post & H & Hq). destruct pre as [|j pre]; simpl in H.
    + injection H as -> ->. right. split; [eauto|exact Hq].
    + injection H as -> ->. left. exists pre, now, post. auto.
  - intros [(pre & now & post & -> & Hq) | [[now ->] Hq]].
    + exists (i :: pre), now, post. auto.
    + exists [], now, rest. auto.
Qed.

Lemma quiet_after_cons id i rest :
  quiet_after id (i :: rest) ↔ i ≠ Disconnect id ∧ quiet_after id rest.
Proof.
  unfold quiet_after. split.
  - intros H. split; [apply H; left | intros j Hj; apply H; right; exact Hj].
  - intros [H1 H2] j Hj. apply elem_of_cons in Hj as [-> | Hj]; auto.
Qed.

(** The two forwarding handlers leave the relay state alone. *)
Lemma on_callUser_state sock d st : (on_callUser sock d st).1 = st.
Proof.
  unfold on_callUser. destruct (negb _); [reflexivity|].
  destruct (userToCall d); reflexivity.
Qed.

Lemma on_answerCall_state sock d st : (on_answerCall sock d st).1 = st.
Proof.
  unfold on_answerCall. destruct (negb _); [reflexivity|].
  destruct (to d); reflexivity.
Qed.

(** Membership in Socket.IO's table after a trace, from any start. *)
Lemma sockets_run id ins : ∀ st,
  id ∈ sockets (run ins st).1 ↔
  registered id ins ∨ (id ∈ sockets st ∧ quiet_after id ins).
Proof.
  induction ins as [|i rest IH]; intros st.
  - simpl. split.
    + intros H. right. split; [exact H|]. intros i Hi. inversion Hi.
    + intros [H | [H _]]; [destruct (registered_nil _ H) | exact H].
  - rewrite run_cons_fst, IH, registered_cons, quiet_after_cons.
    destruct i as [id' now | id' | sock d | sock d]; simpl.
    + rewrite elem_of_union, elem_of_singleton. split.
      * intros [H | [[-> | H] Hq]];
          [by left; left | by left; right; eauto | by right].
      * intros [[H | [[now' [= ->]] Hq]] | (H & _ & Hq)];
          [by left | right; split; [by left|done] | right; split; [by right|done]].
    + rewrite elem_of_difference, elem_of_singleton. split.
      * intros [H | [[H Hne] Hq]]; [by left; left|].
        right. split; [done|]. split; [congruence|done].
      * intros [[H | [[now' [=]] Hq]] | (H & Hne & Hq)]; [by left|].
        right. split; [|done]. split; [done|congruence].
    + rewrite on_callUser_state. split.
      * intros [H | [H Hq]]; [by left; left | by right].
      * intros [[H | [[now' [=]] Hq]] | (H & _ & Hq)]; [by left | by right].
    + rewrite on_answerCall_state. split.
      * intros [H | [H Hq]]; [by left; left | by right].
      * intros [[H | [[now' [=]] Hq]] | (H & _ & Hq)]; [by left | by right].
Qed.

Lemma consistent_step i st : consistent st → consistent (step i st).1.
Proof.
  unfold consistent. intros H.
  destruct i as [id' now | id' | sock d | sock d]; simpl.
  - rewrite dom_insert_L. by rewrite H.
  - rewrite dom_delete_L. by rewrite H.
  - by rewrite on_callUser_state.
  - by rewrite on_answerCall_state.
Qed.

Lemma consistent_run ins : ∀ st, consistent st → consistent (run ins st).1.
Proof.
  induction ins as [|i rest IH]; intros st H; [exact H|].
  rewrite run_cons_fst. apply IH, consistent_step, H.
Qed.

Lemma consistent_init : consistent init.
Proof. unfold consistent, init. simpl. apply dom_empty_L. Qed.

Lemma tracked_iff st id :
  consistent st → tracked st id = true ↔ id ∈ sockets st.
Proof.
  intros H. unfold tracked.
  rewrite bool_decide_eq_true, <- H. symmetry. apply elem_of_dom.
Qed.

Lemma registered_from_init id ins :
  id ∈ sockets (run ins init).1 ↔ registered id ins.
Proof.
  rewrite sockets_run. split; [|by left].
  intros [H | [H _]]; [exact H|]. simpl in H.
  by apply not_elem_of_empty in H.
Qed.

Lemma unregister_absent st id :
  id ∉ sockets st → connectedUsers st !! id = None →
  (step (Disconnect id) st).1 = st.
Proof.
  intros H1 H2. destruct st as [s m]; simpl in *. f_equal.
  - apply set_eq. intros x. rewrite elem_of_difference, elem_of_singleton.
    split; [by intros [? _] | intros Hx; split; [done | congruence]].
  - by apply delete_id.
Qed.

(** C3. An offer whose destination is not live at forward time draws
    exactly one ["callError"] delivery, addressed to the socket that
    sent the offer, and nothing else: no delivery goes to any other
    connection, the dead destination included, and the relay state is
    as before. *)
Theorem offer_to_dead_destination (sock : string) (d : CallUserData) (st : State) :
  has_socket st (userToCall d) = false →
  on_callUser sock d st =
    (st, [(sock, CallError "User not found or disconnected")]) ∧
  ∀ r ev, (r, ev) ∈ (on_callUser sock d st).2 →
          r = sock ∧ ∃ msg, ev = CallError msg.
Proof.
  intros Hdead.
  assert (E : on_callUser sock d st =
              (st, [(sock, CallError "User not found or disconnected")])).
  { unfold on_callUser. rewrite Hdead. reflexivity. }
  split; [exact E|].
  intros r ev Hin. rewrite E in Hin. simpl in Hin.
  apply list_elem_of_singleton in Hin. injection Hin as -> ->. eauto.
Qed.

Lemma offer_to_dead_destination_witness :
  has_socket two_clients (userToCall offer_to_gone) = false ∧
  on_callUser "A1" offer_to_gone two_clients =
    (two_clients, [("A1", CallError "User not found or disconnected")]).
Proof.
  assert (H : has_socket two_clients (userToCall offer_to_gone) = false)
    by (vm_compute; reflexivity).
  split; [exact H|].
  exact (proj1 (offer_to_dead_destination "A1" offer_to_gone two_clients H)).
Defined.

(** C4. After any finite sequence of connections and disconnections
    (interleaved with any forwarding requests) the liveness check
    [io.sockets.sockets.has(id)] and the handler's [connectedUsers] map
    both hold exactly the ids that were registered and not unregistered
    since; and a disconnection of an id that is in neither table leaves
    the relay state as it was. *)
Theorem registry_reflects_registered (ins : list Input) (id : string) :
  (has_socket (run ins init).1 (JStr id) = true ↔ registered id ins) ∧
  (tracked (run ins init).1 id = true ↔ registered id ins) ∧
  (has_socket (run ins init).1 (JStr id) = false →
   tracked (run ins init).1 id = false →
   (step (Disconnect id) (run ins init).1).1 = (run ins init).1).
Proof.
  assert (Hc : consistent (run ins init).1)
    by apply consistent_run, consistent_init.
  split; [|split].
  - simpl. rewrite bool_decide_eq_true. apply registered_from_init.
  - rewrite (tracked_iff _ _ Hc). apply registered_from_init.
  - simpl. unfold tracked. rewrite !bool_decide_eq_false.
    intros H1 H2. apply unregister_absent; [exact H1|].
    destruct (connectedUsers (run ins init).1 !! id) eqn:E; [|reflexivity].
    destruct H2. eauto.
Qed.

Lemma registry_reflects_registered_witness :
  (step (Disconnect "B2")
     (run [Connect "A1" "t0"; Connect "B2" "t1"; Disconnect "B2"] init).1).1 =
  (run [Connect "A1" "t0"; Connect "B2" "t1"; Disconnect "B2"] init).1.
Proof.
  apply (registry_reflects_registered
           [Connect "A1" "t0"; Connect "B2" "t1"; Disconnect "B2"] "B2");
    vm_compute; reflexivity.
Defined.

(** C5. When the destination is live the relay delivers, to that
    destination alone, a ["callUser"] event carrying the very
    [signalData], [from] and [name] it received, respectively a
    ["callAccepted"] event carrying the very answer signal it
    received. *)
Theorem relay_is_payload_opaque (st : State) (sock : string) :
  (∀ d, has_socket st (userToCall d) = true →
        ∃ dest, userToCall d = JStr dest ∧
          on_callUser sock d st =
            (st, [(dest, CallUser (signalData d) (from d) (name d))])) ∧
  (∀ a, has_socket st (to a) = true →
        ∃ dest, to a = JStr dest ∧
          on_answerCall sock a st = (st, [(dest, CallAccepted (signal a))])).
Proof.
  split.
  - intros d Hlive. unfold on_callUser. rewrite Hlive. simpl.
    destruct (userToCall d) as [| | | |dest|]; simpl in Hlive; try discriminate.
    exists dest. split; [reflexivity|].
    unfold io_to_emit. rewrite Hlive. reflexivity.
  - intros a Hlive. unfold on_answerCall. rewrite Hlive. simpl.
    destruct (to a) as [| | | |dest|]; simpl in Hlive; try discriminate.
    exists dest. split; [reflexivity|].
    unfold io_to_emit. rewrite Hlive. reflexivity.
Qed.

Lemma relay_is_payload_opaque_witness :
  on_callUser "A1" offer_to_B2 two_clients =
    (two_clients, [("B2", CallUser (JStr "OFFER-XYZ") (JStr "A1") (JStr "Alice"))]) ∧
  on_answerCall "B2" answer_to_A1 two_clients =
    (two_clients, [("A1", CallAccepted (JStr "ANSWER-XYZ"))]).
Proof.
  destruct (relay_is_payload_opaque two_clients "A1") as [Hoffer _].
  destruct (relay_is_payload_opaque two_clients "B2") as [_ Hanswer].
  destruct (Hoffer offer_to_B2) as (dest & Hd & E); [vm_compute; reflexivity|].
  destruct (Hanswer answer_to_A1) as (dest' & Hd' & E'); [vm_compute; reflexivity|].
  injection Hd as <-. injection Hd' as <-.
  split; [exact E | exact E'].
Defined.

End RelayFacts.

(** * Properties of the participant *)

Module ParticipantFacts.
Import Participant.

Ltac unfold_m :=
  cbv [bind ret modify get effect when throw try_catch] in *.

(** ** The handler monad *)

Lemma bind_modify {B} f (k : unit → M B) c :
  bind (modify f) k c = k tt (f c).
Proof.
  unfold bind, modify. destruct (k tt (f c)) as [[o c2] l2]. reflexivity.
Qed.

Lemma bind_get {B} (k : Ctx → M B) c : bind get k c = k c c.
Proof. unfold bind, get. destruct (k c c) as [[o c2] l2]. reflexivity. Qed.

Lemma try_catch_returns {A} (body handler : M A) c :
  (∀ c1, ∃ a c2 l, handler c1 = (Ret a, c2, l)) →
  ∃ a c' l, try_catch body handler c = (Ret a, c', l).
Proof.
  intros H. unfold try_catch. destruct (body c) as [[[a|] c1] l1]; [eauto|].
  destruct (H c1) as (a & c2 & l & ->). eauto.
Qed.

(** ** Refs follow the state *)

Lemma commit_synced c : refs_synced (commit c).
Proof. repeat split. Qed.

Lemma commit_id c : refs_synced c → commit c = c.
Proof. destruct c. intros (H1 & H2 & H3). simpl in *. subst. reflexivity. Qed.

Lemma step_synced K ev c : refs_synced (step K ev c).1.
Proof.
  unfold step. destruct (handler K ev c) as [[o c'] l]. apply commit_synced.
Qed.

Lemma run_snoc K evs ev c :
  (run K (evs ++ [ev]) c).1 = (step K ev (run K evs c).1).1.
Proof.
  revert c. induction evs as [|e rest IH]; intros c; simpl.
  - destruct (step K ev c) as [c1 l1]. reflexivity.
  - destruct (step K e c) as [c1 l1]. specialize (IH c1).
    destruct (run K (rest ++ [ev]) c1) as [c2 l2].
    destruct (run K rest c1) as [c3 l3]. exact IH.
Qed.

(** Between events the refs always mirror the state. *)
Lemma reachable_refs_synced K c : reachable K c → refs_synced c.
Proof.
  intros [evs <-]. destruct evs as [|e rest] using rev_ind.
  - repeat split.
  - rewrite run_snoc. apply step_synced.
Qed.

Lemma in_call_reachable : reachable quiet in_call.
Proof. unfold in_call. eexists. reflexivity. Qed.

(** With the refs in step, the listener's in-call test is the negation
    of [idle]. *)
Lemma idle_iff c : refs_synced c → idle c ↔ isInCall c = false.
Proof.
  intros (H1 & H2 & H3). unfold idle, isInCall. rewrite H1, H2, H3.
  destruct (callAccepted c), (isReceivingCall (call c)),
    (connectionRef c), (userStream c); simpl; intuition congruence.
Qed.

(** ** Cleanup *)

Lemma stop_tracks_calm K ts c :
  (∀ t, t ∈ ts → stop_throws K t = false) →
  stop_tracks K ts c = (Ret tt, c, TrackStop <$> ts).
Proof.
  induction ts as [|t rest IH]; intros H; [reflexivity|].
  simpl. unfold track_stop. unfold_m.
  rewrite (H t) by left. rewrite IH by (intros; apply H; by right).
  reflexivity.
Qed.

(** What a [handleCallEnd] that meets no exception does. *)
Lemma handleCallEnd_calm K cap c :
  (∀ p, connectionRef c = Some p → destroy_throws K p = false) →
  (∀ t, t ∈ tracks_of (cap_stream cap) ++ tracks_of (cap_userStream cap) →
        stop_throws K t = false) →
  handleCallEnd K cap c =
    (Ret tt, cleaned c,
     destroyed c ++ (TrackStop <$> tracks_of (cap_stream cap)) ++
                    (TrackStop <$> tracks_of (cap_userStream cap))).
Proof.
  intros Hd Hs.
  assert (Hs1 : ∀ t, t ∈ tracks_of (cap_stream cap) → stop_throws K t = false)
    by (intros; apply Hs, elem_of_app; auto).
  assert (Hs2 : ∀ t, t ∈ tracks_of (cap_userStream cap) → stop_throws K t = false)
    by (intros; apply Hs, elem_of_app; auto).
  clear Hs. destruct cap as [cs cu]. destruct c. simpl in *.
  unfold handleCallEnd, cleaned, destroyed, peer_destroy. unfold_m. simpl.
  destruct connectionRef0 as [p|]; simpl; rewrite ?(Hd p eq_refl);
    destruct cs as [s|], cu as [u|]; simpl in *;
    rewrite ?stop_tracks_calm by assumption;
    simpl; rewrite ?app_nil_r; reflexivity.
Qed.

(** [handleCallEnd] never lets an exception out, whatever the
    collaborators do and however often it runs. *)
Lemma handleCallEnd_returns K cap c :
  ∃ c' l, handleCallEnd K cap c = (Ret tt, c', l).
Proof.
  unfold handleCallEnd. rewrite !bind_modify.
  edestruct (try_catch_returns (A:=unit)) as ([] & c' & l & ->); [|eauto].
  intros c1. exists tt, c1, []. reflexivity.
Qed.

Lemma cleaned_idle c : idle (commit (cleaned c)).
Proof. repeat split. Qed.

Lemma leaveCall_calm K c :
  calm K →
  step K UiLeaveCall c =
    (commit (cleaned c),
     destroyed c ++ (TrackStop <$> tracks_of (stream c)) ++
                    (TrackStop <$> tracks_of (userStream c))).
Proof.
  intros [Hd Hs]. unfold step. simpl. unfold leaveCall. rewrite bind_get.
  rewrite handleCallEnd_calm by auto. reflexivity.
Qed.

(** The ["callEnded"] listener runs the first render's closure, which
    holds no stream: it destroys the peer and stops no track. *)
Lemma callEnded_step K c d :
  (∀ p, connectionRef c = Some p → destroy_throws K p = false) →
  step K (SockCallEnded d) c =
    if isInCall c then (commit (cleaned c), destroyed c) else (commit c, []).
Proof.
  intros Hd. unfold step. simpl. unfold on_callEnded. rewrite bind_get.
  destruct (isInCall c); [|reflexivity].
  rewrite handleCallEnd_calm; [|exact Hd|intros t Ht; inversion Ht].
  simpl. rewrite app_nil_r. reflexivity.
Qed.


(** A second hangup finds no peer to destroy and no remote stream, and
    stops the local tracks again. *)
Lemma second_cleanup_log (K : Collab) (c : Ctx) :
  calm K →
  (step K UiLeaveCall (step K UiLeaveCall c).1).2 =
    TrackStop <$> tracks_of (stream c).
Proof.
  intros HK. rewrite (leaveCall_calm K c HK). simpl.
  rewrite (leaveCall_calm K _ HK). simpl. rewrite app_nil_r. reflexivity.
Qed.

Lemma calm_quiet : calm quiet.
Proof. split; reflexivity. Qed.

Lemma stop_calls_app t l1 l2 :
  stop_calls t (l1 ++ l2) = (stop_calls t l1 + stop_calls t l2)%nat.
Proof.
  induction l1 as [|e rest IH]; [reflexivity|].
  destruct e; simpl; rewrite IH; lia.
Qed.

Lemma stop_calls_elem t l :
  TrackStop t ∈ l → (1 ≤ stop_calls (track_id t) l)%nat.
Proof.
  induction l as [|e rest IH]; intros H; [inversion H|].
  apply elem_of_cons in H as [<- | H].
  - simpl. rewrite Nat.eqb_refl. lia.
  - specialize (IH H). destruct e; simpl; lia.
Qed.

Lemma run_two K e1 e2 c :
  (run K [e1; e2] c).2 = (step K e1 c).2 ++ (step K e2 (step K e1 c).1).2.
Proof.
  simpl. destruct (step K e1 c) as [c1 l1]. simpl.
  destruct (step K e2 c1) as [c2 l2]. simpl. by rewrite app_nil_r.
Qed.

(** In general: whenever a local stream is held, two hangups in a row
    call [stop()] at least twice on each of its tracks, while the second
    one destroys no peer and stops no track that is only remote. *)
Lemma second_cleanup_stops_again (K : Collab) (c : Ctx) (s : Stream) (t : Track) :
  calm K → stream c = Some s → t ∈ getTracks s →
  TrackStop t ∈ (step K UiLeaveCall c).2 ∧
  TrackStop t ∈ (step K UiLeaveCall (step K UiLeaveCall c).1).2 ∧
  (2 ≤ stop_calls (track_id t) (run K [UiLeaveCall; UiLeaveCall] c).2)%nat ∧
  (∀ p, PeerDestroy p ∉ (step K UiLeaveCall (step K UiLeaveCall c).1).2) ∧
  (∀ u, u ∉ getTracks s →
        TrackStop u ∉ (step K UiLeaveCall (step K UiLeaveCall c).1).2).
Proof.
  intros HK Hs Ht.
  assert (H1 : TrackStop t ∈ (step K UiLeaveCall c).2).
  { rewrite (leaveCall_calm K c HK). simpl. rewrite Hs. simpl.
    apply elem_of_app. right. apply elem_of_app. left.
    apply list_elem_of_fmap. eauto. }
  assert (H2 : TrackStop t ∈ (step K UiLeaveCall (step K UiLeaveCall c).1).2).
  { rewrite (second_cleanup_log K c HK), Hs. simpl.
    apply list_elem_of_fmap. eauto. }
  split_and!; [exact H1 | exact H2 | | |].
  - rewrite run_two, stop_calls_app.
    apply stop_calls_elem in H1, H2. lia.
  - intros p Hp. rewrite (second_cleanup_log K c HK) in Hp.
    apply list_elem_of_fmap in Hp as (x & Hx & _). discriminate Hx.
  - intros u Hu Hin.
    rewrite (second_cleanup_log K c HK), Hs in Hin. simpl in Hin.
    apply list_elem_of_fmap in Hin as (x & [= ->] & Hx). contradiction.
Qed.

(** ** The [stream] cell is never written by the cleanup *)

Lemma keeps_ret {A} (a : A) : keeps_stream (ret a).
Proof. intros c. reflexivity. Qed.

Lemma keeps_throw {A} : keeps_stream (@throw A).
Proof. intros c. reflexivity. Qed.

Lemma keeps_effect e : keeps_stream (effect e).
Proof. intros c. reflexivity. Qed.

Lemma keeps_modify f :
  (∀ c, stream (f c) = stream c) → keeps_stream (modify f).
Proof. intros H c. apply H. Qed.

Lemma keeps_bind {A B} (m : M A) (k : A → M B) :
  keeps_stream m → (∀ a, keeps_stream (k a)) → keeps_stream (bind m k).
Proof.
  intros Hm Hk c. unfold bind. specialize (Hm c).
  destruct (m c) as [[[a|] c1] l1]; simpl in *; [|exact Hm].
  specialize (Hk a c1). destruct (k a c1) as [[o c2] l2]. simpl in *.
  congruence.
Qed.

Lemma keeps_get_bind {B} (k : Ctx → M B) :
  (∀ c0, keeps_stream (k c0)) → keeps_stream (bind get k).
Proof. intros H c. rewrite bind_get. apply H. Qed.

Lemma keeps_try_catch {A} (body handler : M A) :
  keeps_stream body → keeps_stream handler →
  keeps_stream (try_catch body handler).
Proof.
  intros Hb Hh c. unfold try_catch. specialize (Hb c).
  destruct (body c) as [[[a|] c1] l1]; simpl in *; [exact Hb|].
  specialize (Hh c1). destruct (handler c1) as [[o c2] l2]. simpl in *.
  congruence.
Qed.

Lemma keeps_when b m : keeps_stream m → keeps_stream (when b m).
Proof. intros H. destruct b; [exact H | apply keeps_ret]. Qed.

Lemma keeps_stop_tracks K ts : keeps_stream (stop_tracks K ts).
Proof.
  induction ts as [|t rest IH]; [apply keeps_ret|].
  simpl. apply keeps_bind; [|intros _; exact IH].
  apply keeps_bind; [apply keeps_effect|].
  intros _. apply keeps_when, keeps_throw.
Qed.

(** Whatever closure runs [handleCallEnd] and whatever the collaborators
    do, [stream] is afterwards what it was. *)
Lemma handleCallEnd_keeps_stream K cap : keeps_stream (handleCallEnd K cap).
Proof.
  unfold handleCallEnd.
  repeat (apply keeps_bind; [by apply keeps_modify|]; intros _).
  apply keeps_try_catch; [|apply keeps_ret].
  apply keeps_get_bind. intros c0.
  apply keeps_bind.
  { destruct (connectionRef c0); [|apply keeps_ret].
    apply keeps_bind; [|intros _; by apply keeps_modify].
    apply keeps_bind; [apply keeps_effect|].
    intros _. apply keeps_when, keeps_throw. }
  intros _. apply keeps_bind.
  { destruct (cap_stream cap); [apply keeps_stop_tracks | apply keeps_ret]. }
  intros _. apply keeps_bind.
  { destruct (cap_userStream cap); [apply keeps_stop_tracks | apply keeps_ret]. }
  intros _. apply keeps_bind; [by apply keeps_modify|].
  intros _. by apply keeps_modify.
Qed.

(** [closeVideo], by contrast, clears the cell once the tracks are
    stopped. *)
Lemma closeVideo_clears_stream K c :
  calm K → stream (step K UiCloseVideo c).1 = None.
Proof.
  intros [_ Hs]. unfold step. simpl. unfold closeVideo. rewrite bind_get.
  unfold try_catch, bind. destruct (stream c) as [s|].
  - rewrite stop_tracks_calm by auto. reflexivity.
  - reflexivity.
Qed.

(** ** Early returns of [callUser] *)

Lemma only_alerts_nil : only_alerts [].
Proof. intros e H. inversion H. Qed.

Lemma only_alerts_one msg : only_alerts [Alert msg].
Proof. intros e H. apply list_elem_of_singleton in H. eauto. Qed.


(** ** The ["callEnded"] listener *)

(** C1, as the specification states it, does not hold. ["B2"] is in a
    call with ["A1"]; a third client ["C3"] disconnects; the broadcast
    naming ["C3"] ends the call of ["B2"]. *)
Lemma stale_filter_counterexample :
  isInCall in_call = true ∧
  call_from (call in_call) = JStr "A1" ∧
  ¬ stale_filter_as_specified quiet in_call (JStr "C3").
Proof.
  split; [vm_compute; reflexivity|]. split; [vm_compute; reflexivity|].
  intros H.
  assert (E : step quiet (SockCallEnded (JStr "C3")) in_call = (in_call, [])).
  { apply H. intros [_ Hd]. vm_compute in Hd. discriminate Hd. }
  vm_compute in E. discriminate E.
Qed.

(** C1, amended. A delivered ["callEnded"] broadcast is ignored, with no
    state change and no effect, whenever the listener's in-call test
    fails (call not accepted, no incoming call recorded, no peer handle,
    no remote stream). When the test succeeds the cleanup runs. The id
    carried by the event plays no part: the listener does the same for
    every id. *)
Theorem callEnded_filter (K : Collab) (c : Ctx) (d : JsVal) :
  (isInCall c = false → on_callEnded K d c = (Ret tt, c, [])) ∧
  (isInCall c = false → refs_synced c → step K (SockCallEnded d) c = (c, [])) ∧
  (isInCall c = true → on_callEnded K d c = handleCallEnd K first_render c) ∧
  (∀ d', on_callEnded K d' c = on_callEnded K d c).
Proof.
  assert (E : isInCall c = false → on_callEnded K d c = (Ret tt, c, [])).
  { intros H. unfold on_callEnded. rewrite bind_get, H. reflexivity. }
  repeat split.
  - exact E.
  - intros H Hs. unfold step. simpl.
    rewrite (E H), (commit_id _ Hs). reflexivity.
  - intros H. unfold on_callEnded. rewrite bind_get, H. reflexivity.
Qed.

Lemma callEnded_filter_witness :
  step quiet (SockCallEnded (JStr "C3")) init = (init, []).
Proof.
  apply (callEnded_filter quiet init (JStr "C3")).
  - reflexivity.
  - repeat split.
Defined.

(** C7. A ["callEnded"] broadcast delivered to an idle participant (not
    in a call, not receiving one; refs mirroring the state, as they do
    between events) changes no state and has no effect. And when a
    first broadcast has torn the call down, so that the participant is
    idle, a second identical broadcast changes nothing and has no
    effect either. A first broadcast does leave the participant idle
    whenever the [destroy] of its cleanup returns. *)
Theorem callEnded_when_idle (K : Collab) (c : Ctx) (d : JsVal) :
  (refs_synced c → idle c → step K (SockCallEnded d) c = (c, [])) ∧
  (idle (step K (SockCallEnded d) c).1 →
   step K (SockCallEnded d) (step K (SockCallEnded d) c).1 =
     ((step K (SockCallEnded d) c).1, [])) ∧
  (refs_synced c →
   (∀ p, connectionRef c = Some p → destroy_throws K p = false) →
   idle (step K (SockCallEnded d) c).1).
Proof.
  assert (Hidle : ∀ c0, refs_synced c0 → idle c0 →
                        step K (SockCallEnded d) c0 = (c0, [])).
  { intros c0 Hs0 Hi. apply (idle_iff _ Hs0) in Hi.
    rewrite callEnded_step.
    - rewrite Hi, (commit_id _ Hs0). reflexivity.
    - intros p Hp. unfold isInCall in Hi. rewrite Hp in Hi. simpl in Hi.
      rewrite orb_true_r in Hi. discriminate Hi. }
  split_and!.
  - apply Hidle.
  - apply Hidle, step_synced.
  - intros Hsync Hd.
    rewrite (callEnded_step K c d Hd). destruct (isInCall c) eqn:E; simpl.
    + apply cleaned_idle.
    + rewrite (commit_id _ Hsync). apply (idle_iff _ Hsync), E.
Qed.

Lemma callEnded_when_idle_witness :
  step quiet (SockCallEnded (JStr "B2")) init = (init, []) ∧
  idle (step quiet (SockCallEnded (JStr "A1")) in_call).1 ∧
  step quiet (SockCallEnded (JStr "A1"))
    (step quiet (SockCallEnded (JStr "A1")) in_call).1 =
    ((step quiet (SockCallEnded (JStr "A1")) in_call).1, []).
Proof.
  assert (Hi : idle (step quiet (SockCallEnded (JStr "A1")) in_call).1).
  { apply (callEnded_when_idle quiet in_call (JStr "A1")).
    - vm_compute. repeat split.
    - intros p _. reflexivity. }
  split_and!.
  - apply (callEnded_when_idle quiet init (JStr "B2")); repeat split.
  - exact Hi.
  - apply (callEnded_when_idle quiet in_call (JStr "A1")), Hi.
Defined.

(** ** Hangup *)

(** C2, as the specification states it, does not hold. ["B2"] hangs up
    in the middle of its call with ["A1"]: nothing goes out on the
    socket. *)
Lemma hangup_counterexample :
  isInCall in_call = true ∧ ¬ hangup_as_specified quiet in_call.
Proof.
  split; [vm_compute; reflexivity|].
  intros (_ & _ & Hnotice & _).
  destruct Hnotice as [e He]; [vm_compute; reflexivity|].
  vm_compute in He.
  repeat (apply elem_of_cons in He as [He | He]; [discriminate He|]).
  inversion He.
Qed.

(** C2, amended. With [destroy] and [stop] returning normally, a local
    hangup destroys the peer handle if there is one, stops every local
    and every remote track, sends nothing on the socket, and leaves the
    participant idle: the state is [cleaned] and the effects are exactly
    the [destroy] and [stop] calls. *)
Theorem leaveCall_cleanup (K : Collab) (c : Ctx) :
  calm K →
  step K UiLeaveCall c =
    (commit (cleaned c),
     destroyed c ++ (TrackStop <$> tracks_of (stream c)) ++
                    (TrackStop <$> tracks_of (userStream c))) ∧
  (∀ p, connectionRef c = Some p → PeerDestroy p ∈ (step K UiLeaveCall c).2) ∧
  (∀ t, t ∈ tracks_of (stream c) ++ tracks_of (userStream c) →
        TrackStop t ∈ (step K UiLeaveCall c).2) ∧
  (∀ e, SocketEmit e ∉ (step K UiLeaveCall c).2) ∧
  idle (step K UiLeaveCall c).1 ∧
  isInCall (step K UiLeaveCall c).1 = false.
Proof.
  intros HK. rewrite (leaveCall_calm K c HK). simpl.
  split; [reflexivity|]. split_and!.
  - intros p Hp. unfold destroyed. rewrite Hp. left.
  - intros t Ht. apply elem_of_app. right.
    rewrite <- fmap_app. apply list_elem_of_fmap. eauto.
  - intros e He. unfold destroyed in He.
    rewrite !elem_of_app, !list_elem_of_fmap in He.
    destruct He as [He | [(t & Ht & _) | (t & Ht & _)]]; try discriminate.
    destruct (connectionRef c);
      [apply list_elem_of_singleton in He; discriminate | inversion He].
  - apply cleaned_idle.
  - apply idle_iff; [apply commit_synced | apply cleaned_idle].
Qed.

Lemma leaveCall_cleanup_witness :
  step quiet UiLeaveCall in_call =
    (commit (cleaned in_call),
     [PeerDestroy 0; TrackStop t_video; TrackStop t_audio; TrackStop t_remote]).
Proof.
  exact (proj1 (leaveCall_cleanup quiet in_call
                  (conj (λ _, eq_refl) (λ _, eq_refl)))).
Defined.

(** C8. The cleanup run twice, on ["B2"] in its call with ["A1"]: the
    second hangup calls [stop()] once more on every local track,
    because the first run left [stream] in place, so each local track
    is released twice. The peer handle is destroyed once and the remote
    track is stopped once. *)
Theorem second_cleanup_restops_local :
  (run quiet [UiLeaveCall; UiLeaveCall] in_call).2 =
    [PeerDestroy 0; TrackStop t_video; TrackStop t_audio; TrackStop t_remote;
     TrackStop t_video; TrackStop t_audio] ∧
  stop_calls (track_id t_video)
    (run quiet [UiLeaveCall; UiLeaveCall] in_call).2 = 2%nat ∧
  stop_calls (track_id t_audio)
    (run quiet [UiLeaveCall; UiLeaveCall] in_call).2 = 2%nat ∧
  stop_calls (track_id t_remote)
    (run quiet [UiLeaveCall; UiLeaveCall] in_call).2 = 1%nat.
Proof.
  assert (E : (run quiet [UiLeaveCall; UiLeaveCall] in_call).2 =
    [PeerDestroy 0; TrackStop t_video; TrackStop t_audio; TrackStop t_remote;
     TrackStop t_video; TrackStop t_audio]).
  { rewrite run_two, (second_cleanup_log quiet in_call calm_quiet).
    rewrite (leaveCall_calm quiet in_call calm_quiet). reflexivity. }
  rewrite E. repeat split.
Qed.

(** ** Starting a call *)

(** C6. With no local stream, [callUser] returns at once: the state is
    untouched, the only possible effect is the alert (no peer is
    created, nothing is sent on the socket), and an idle participant
    stays idle. *)
Theorem callUser_needs_local_stream (K : Collab) (id : string) (c : Ctx) :
  stream c = None →
  (∃ l, callUser K id c = (Ret tt, c, l) ∧ only_alerts l) ∧
  (step K (UiCallUser id) c).1 = commit c ∧
  (idle c → idle (step K (UiCallUser id) c).1).
Proof.
  intros Hs.
  assert (E : ∃ l, callUser K id c = (Ret tt, c, l) ∧ only_alerts l).
  { unfold callUser. rewrite bind_get.
    destruct (String.eqb id "" || is_blank id).
    - exists []. split; [reflexivity|apply only_alerts_nil].
    - rewrite Hs. eexists. split; [reflexivity|apply only_alerts_one]. }
  split; [exact E|].
  destruct E as (l & E & _).
  assert (E' : (step K (UiCallUser id) c).1 = commit c)
    by (unfold step; simpl; rewrite E; reflexivity).
  split; [exact E'|]. rewrite E'. intros Hi. exact Hi.
Qed.

Lemma callUser_needs_local_stream_witness :
  ∃ l, callUser quiet "B2" init = (Ret tt, init, l) ∧ only_alerts l.
Proof.
  exact (proj1 (callUser_needs_local_stream quiet "B2" init eq_refl)).
Defined.

(** C9. Calling one's own id is rejected inside [callUser]: it returns
    with the state untouched, creates no peer and sends nothing on the
    socket; at most an alert is shown. *)
Theorem callUser_self_rejected (K : Collab) (c : Ctx) :
  ∃ l, callUser K (me c) c = (Ret tt, c, l) ∧ only_alerts l.
Proof.
  unfold callUser. rewrite bind_get.
  destruct (String.eqb (me c) "" || is_blank (me c)).
  - exists []. split; [reflexivity|apply only_alerts_nil].
  - destruct (stream c).
    + rewrite String.eqb_refl. eexists.
      split; [reflexivity|apply only_alerts_one].
    + eexists. split; [reflexivity|apply only_alerts_one].
Qed.




(** ** The blank test of [callUser] on sample ids *)

(** An id made of no-break spaces (U+00A0, either as the two bytes of
    UTF-8 or as one code unit), of a byte order mark, of line and
    paragraph separators or of the ideographic space is blank, as is
    plain ASCII white space; a socket id, a zero width space (U+200B)
    and a next line character (U+0085), which [trim] leaves alone, are
    not. *)
Lemma is_blank_samples :
  is_blank (of_bytes [194; 160]) = true ∧
  is_blank (of_bytes [160]) = true ∧
  is_blank (of_bytes [239; 187; 191]) = true ∧
  is_blank (of_bytes [226; 128; 168; 226; 128; 169]) = true ∧
  is_blank (of_bytes [227; 128; 128; 32; 9]) = true ∧
  is_blank (of_bytes [225; 154; 128; 226; 128; 138; 226; 128; 175; 226; 129; 159]) = true ∧
  is_blank " B2 " = false ∧
  is_blank (of_bytes [226; 128; 139]) = false ∧
  is_blank (of_bytes [194; 133]) = false.
Proof. repeat split. Qed.

(** With a blank id [callUser] returns at its first test whatever the
    state: nothing is written and nothing happens. *)
Lemma callUser_blank_id K id c :
  is_blank id = true → callUser K id c = (Ret tt, c, []).
Proof.
  intros H. unfold callUser. rewrite bind_get, H, orb_true_r. reflexivity.
Qed.

End ParticipantFacts.

Module RelayMore.
Import Relay RelayFacts.

Lemma run_cons_out i rest st :
  (run (i :: rest) st).2 = (step i st).2 ++ (run rest (step i st).1).2.
Proof.
  simpl. destruct (step i st) as [st1 o1]. simpl.
  destruct (run rest st1) as [st2 o2]. reflexivity.
Qed.

Lemma forward_step_state i st : lifecycle i = false → (step i st).1 = st.
Proof.
  destruct i; try discriminate; intros _; simpl;
    [apply on_callUser_state | apply on_answerCall_state].
Qed.

(** X1. When a client disconnects, the ["callEnded"] notice naming it
    is delivered to every other connected socket, once each, and to no
    one else; the disconnected socket gets nothing. *)
Theorem disconnect_broadcast (st : State) (id : string) :
  (∀ r ev, (r, ev) ∈ (step (Disconnect id) st).2 ↔
           r ∈ sockets st ∧ r ≠ id ∧ ev = CallEnded id) ∧
  NoDup (step (Disconnect id) st).2.
Proof.
  simpl. unfold broadcast_emit. simpl. split.
  - intros r ev. rewrite list_elem_of_fmap. split.
    + intros (x & [= -> ->] & Hx). apply elem_of_elements in Hx.
      rewrite !elem_of_difference, !elem_of_singleton in Hx. tauto.
    + intros (Hr & Hne & ->). exists r. split; [reflexivity|].
      apply elem_of_elements.
      rewrite !elem_of_difference, !elem_of_singleton. tauto.
  - apply NoDup_fmap_2; [|apply NoDup_elements].
    intros x y [= ->]. reflexivity.
Qed.

(** X2. An answer addressed to a caller that is no longer connected
    draws exactly one ["callError"] ("Caller disconnected"), sent to the
    answering socket; nothing is forwarded and the relay state is
    unchanged. *)
Theorem answer_to_dead_caller (sock : string) (a : AnswerData) (st : State) :
  has_socket st (to a) = false →
  on_answerCall sock a st = (st, [(sock, CallError "Caller disconnected")]).
Proof. intros H. unfold on_answerCall. rewrite H. reflexivity. Qed.

Lemma answer_to_dead_caller_witness :
  on_answerCall "B2" (mkAnswerData (JStr "Z9") (JStr "ANSWER")) three_clients =
    (three_clients, [("B2", CallError "Caller disconnected")]).
Proof.
  apply (answer_to_dead_caller "B2" (mkAnswerData (JStr "Z9") (JStr "ANSWER"))
           three_clients).
  vm_compute. reflexivity.
Defined.

(** X3. Offers and answers never touch the registry: the relay state
    after a trace is the state after its connections and
    disconnections alone. *)
Theorem forwarding_leaves_registry (ins : list Input) (st : State) :
  (run ins st).1 = (run (List.filter lifecycle ins) st).1.
Proof.
  revert st. induction ins as [|i rest IH]; intros st; [reflexivity|].
  rewrite run_cons_fst. simpl List.filter. destruct (lifecycle i) eqn:E.
  - rewrite run_cons_fst. apply IH.
  - rewrite (forward_step_state i st E). apply IH.
Qed.

(** X4. Connecting a fresh id and disconnecting it again brings the
    relay back to the state it was in; the new client has been told its
    id and every client that was connected has been sent the
    ["callEnded"] notice. *)
Theorem connect_disconnect_round_trip (st : State) (id now : string) :
  id ∉ sockets st → connectedUsers st !! id = None →
  run [Connect id now; Disconnect id] st =
    (st, (id, Me id) :: ((λ r, (r, CallEnded id)) <$> elements (sockets st))).
Proof.
  intros Hs Hm. destruct st as [s m]. simpl in *.
  unfold broadcast_emit. simpl.
  assert (E : ({[id]} ∪ s) ∖ {[id]} = s).
  { apply set_eq. intros x.
    rewrite elem_of_difference, elem_of_union, elem_of_singleton.
    split; [tauto|]. intros Hx. split; [tauto|]. congruence. }
  rewrite E.
  assert (E' : s ∖ {[id]} = s).
  { apply set_eq. intros x. rewrite elem_of_difference, elem_of_singleton.
    split; [tauto|]. intros Hx. split; [tauto|]. congruence. }
  rewrite E'. rewrite delete_insert_eq, (delete_id _ _ Hm), app_nil_r.
  reflexivity.
Qed.

Lemma connect_disconnect_round_trip_witness :
  (run [Connect "D4" "t3"; Disconnect "D4"] three_clients).1 = three_clients.
Proof.
  rewrite (connect_disconnect_round_trip three_clients "D4" "t3");
    [reflexivity | vm_compute; intros H; discriminate H | vm_compute; reflexivity].
Defined.

(** X5. Whatever the relay delivers in answer to an input from a
    connected socket goes to a socket that is connected after the
    step: nothing is addressed to a dead id. *)
Theorem deliveries_reach_live_sockets (i : Input) (st : State) :
  sender_live st i →
  ∀ r ev, (r, ev) ∈ (step i st).2 → r ∈ sockets (step i st).1.
Proof.
  intros Hlive r ev Hin. destruct i as [id now | id | sock d | sock d]; simpl in *.
  - apply list_elem_of_singleton in Hin. injection Hin as -> _.
    apply elem_of_union. left. by apply elem_of_singleton.
  - unfold broadcast_emit in Hin. simpl in Hin.
    apply list_elem_of_fmap in Hin as (x & [= -> _] & Hx).
    apply elem_of_elements in Hx.
    rewrite elem_of_difference in Hx. tauto.
  - rewrite on_callUser_state. unfold on_callUser in Hin.
    destruct (has_socket st (userToCall d)) eqn:E; simpl in Hin.
    + destruct (userToCall d) as [| | | |dest|]; try discriminate.
      simpl in E. unfold io_to_emit in Hin. rewrite E in Hin.
      apply list_elem_of_singleton in Hin. injection Hin as -> _.
      by apply bool_decide_eq_true in E.
    + apply list_elem_of_singleton in Hin. by injection Hin as -> _.
  - rewrite on_answerCall_state. unfold on_answerCall in Hin.
    destruct (has_socket st (to d)) eqn:E; simpl in Hin.
    + destruct (to d) as [| | | |dest|]; try discriminate.
      simpl in E. unfold io_to_emit in Hin. rewrite E in Hin.
      apply list_elem_of_singleton in Hin. injection Hin as -> _.
      by apply bool_decide_eq_true in E.
    + apply list_elem_of_singleton in Hin. by injection Hin as -> _.
Qed.


Lemma deliveries_reach_live_sockets_witness :
  "B2" ∈ sockets
    (step (InCallUser "A1"
             (mkCallUserData (JStr "B2") (JStr "OFFER") (JStr "A1") (JStr "Alice")))
          three_clients).1.
Proof.
  apply (deliveries_reach_live_sockets
           (InCallUser "A1"
              (mkCallUserData (JStr "B2") (JStr "OFFER") (JStr "A1") (JStr "Alice")))
           three_clients)
    with (ev := CallUser (JStr "OFFER") (JStr "A1") (JStr "Alice")).
  - apply (bool_decide_eq_true_1 ("A1" ∈ sockets three_clients)).
    vm_compute. reflexivity.
  - vm_compute. left.
Defined.

(** X6. The relay makes up no offer and no answer: every ["callUser"]
    delivery of a trace repeats the signal, sender id and name of an
    offer received in that trace and addressed to the receiver, and
    every ["callAccepted"] delivery repeats the signal of an answer
    received and addressed to the receiver. *)
Theorem forwarded_events_have_a_source (ins : list Input) (st : State) (r : string) :
  (∀ s f n, (r, CallUser s f n) ∈ (run ins st).2 →
     ∃ sock d, InCallUser sock d ∈ ins ∧ userToCall d = JStr r ∧
               signalData d = s ∧ from d = f ∧ name d = n) ∧
  (∀ s, (r, CallAccepted s) ∈ (run ins st).2 →
     ∃ sock a, InAnswerCall sock a ∈ ins ∧ to a = JStr r ∧ signal a = s).
Proof.
  revert st. induction ins as [|i rest IH]; intros st.
  - split; intros; simpl in *; by apply not_elem_of_nil in H.
  - destruct (IH (step i st).1) as [IH1 IH2]. split.
    + intros s f n Hin. rewrite run_cons_out, elem_of_app in Hin.
      destruct Hin as [Hin | Hin].
      * destruct i as [id now | id | sock d | sock d]; simpl in Hin.
        -- apply list_elem_of_singleton in Hin. discriminate Hin.
        -- unfold broadcast_emit in Hin.
           apply list_elem_of_fmap in Hin as (x & Hx & _). discriminate Hx.
        -- unfold on_callUser in Hin.
           destruct (has_socket st (userToCall d)) eqn:E; simpl in Hin.
           ++ destruct (userToCall d) as [| | | |dest|] eqn:Ed; try discriminate.
              simpl in E. unfold io_to_emit in Hin. rewrite E in Hin.
              apply list_elem_of_singleton in Hin. injection Hin as -> -> -> ->.
              exists sock, d. split; [left|]. by rewrite Ed.
           ++ apply list_elem_of_singleton in Hin. discriminate Hin.
        -- unfold on_answerCall in Hin.
           destruct (has_socket st (to d)) eqn:E; simpl in Hin.
           ++ destruct (to d) as [| | | |dest|]; try discriminate.
              simpl in E. unfold io_to_emit in Hin. rewrite E in Hin.
              apply list_elem_of_singleton in Hin. discriminate Hin.
           ++ apply list_elem_of_singleton in Hin. discriminate Hin.
      * destruct (IH1 s f n Hin) as (sock & d & Hd & H). exists sock, d.
        split; [by right|exact H].
    + intros s Hin. rewrite run_cons_out, elem_of_app in Hin.
      destruct Hin as [Hin | Hin].
      * destruct i as [id now | id | sock d | sock d]; simpl in Hin.
        -- apply list_elem_of_singleton in Hin. discriminate Hin.
        -- unfold broadcast_emit in Hin.
           apply list_elem_of_fmap in Hin as (x & Hx & _). discriminate Hx.
        -- unfold on_callUser in Hin.
           destruct (has_socket st (userToCall d)) eqn:E; simpl in Hin.
           ++ destruct (userToCall d) as [| | | |dest|]; try discriminate.
              simpl in E. unfold io_to_emit in Hin. rewrite E in Hin.
              apply list_elem_of_singleton in Hin. discriminate Hin.
           ++ apply list_elem_of_singleton in Hin. discriminate Hin.
        -- unfold on_answerCall in Hin.
           destruct (has_socket st (to d)) eqn:E; simpl in Hin.
           ++ destruct (to d) as [| | | |dest|] eqn:Ed; try discriminate.
              simpl in E. unfold io_to_emit in Hin. rewrite E in Hin.
              apply list_elem_of_singleton in Hin. injection Hin as -> ->.
              exists sock, d. split; [left|]. by rewrite Ed.
           ++ apply list_elem_of_singleton in Hin. discriminate Hin.
      * destruct (IH2 s Hin) as (sock & a & Ha & H). exists sock, a.
        split; [by right|exact H].
Qed.

Lemma forwarded_events_have_a_source_witness :
  ∃ sock d,
    InCallUser sock d ∈
      [InCallUser "A1" (mkCallUserData (JStr "B2") (JStr "OFFER") (JStr "A1") (JStr "Alice"))] ∧
    userToCall d = JStr "B2" ∧ signalData d = JStr "OFFER" ∧
    from d = JStr "A1" ∧ name d = JStr "Alice".
Proof.
  apply (forwarded_events_have_a_source
           [InCallUser "A1" (mkCallUserData (JStr "B2") (JStr "OFFER") (JStr "A1") (JStr "Alice"))]
           three_clients "B2").
  vm_compute. left.
Defined.

(** ** The records of [connectedUsers] *)
Lemma relay_run_snoc ins i st :
  (run (ins ++ [i]) st).1 = (step i (run ins st).1).1.
Proof.
  revert st. induction ins as [|j rest IH]; intros st.
  - simpl. destruct (step i st). reflexivity.
  - rewrite <- app_comm_cons, !run_cons_fst. apply IH.
Qed.

Lemma latest_connect_snoc id now ins i :
  latest_connect id now ins → i ≠ Disconnect id → (∀ now', i ≠ Connect id now') →
  latest_connect id now (ins ++ [i]).
Proof.
  intros (pre & post & -> & Hpost) H1 H2.
  exists pre, (post ++ [i]). split; [by rewrite <- app_assoc|].
  intros j Hj. apply elem_of_app in Hj as [Hj | Hj]; [by apply Hpost|].
  apply list_elem_of_singleton in Hj as ->. by split.
Qed.

(** X7. A record found in [connectedUsers] under [id] carries [id] as
    its [socketId], and its [connectedAt] is the time of the last
    connection of [id], which no disconnection of [id] has followed. *)
Theorem record_is_latest_connection (ins : list Input) (id : string) (info : ConnInfo) :
  connectedUsers (run ins init).1 !! id = Some info →
  socketId info = id ∧ latest_connect id (connectedAt info) ins.
Proof.
  revert info. induction ins as [|i rest IH] using rev_ind; intros info.
  - simpl. by rewrite lookup_empty.
  - rewrite relay_run_snoc.
    destruct i as [id' now | id' | sock d | sock d]; simpl.
    + rewrite lookup_insert. case_decide as E.
      * intros [= <-]. subst. split; [reflexivity|]. simpl.
        exists rest, []. split; [reflexivity|]. intros j Hj. inversion Hj.
      * intros H. destruct (IH _ H) as [H1 H2]. split; [exact H1|].
        apply latest_connect_snoc; [exact H2|discriminate|congruence].
    + rewrite lookup_delete. case_decide as E; [discriminate|].
      intros H. destruct (IH _ H) as [H1 H2]. split; [exact H1|].
      apply latest_connect_snoc; [exact H2|congruence|discriminate].
    + rewrite on_callUser_state. intros H. destruct (IH _ H) as [H1 H2].
      split; [exact H1|]. apply latest_connect_snoc; [exact H2|discriminate|discriminate].
    + rewrite on_answerCall_state. intros H. destruct (IH _ H) as [H1 H2].
      split; [exact H1|]. apply latest_connect_snoc; [exact H2|discriminate|discriminate].
Qed.

Lemma record_is_latest_connection_witness :
  latest_connect "A1" "t5"
    [Connect "A1" "t0"; Connect "B2" "t1"; Disconnect "A1"; Connect "A1" "t5"].
Proof.
  apply (record_is_latest_connection
           [Connect "A1" "t0"; Connect "B2" "t1"; Disconnect "A1"; Connect "A1" "t5"]
           "A1" (mkConnInfo "t5" "A1")).
  vm_compute. reflexivity.
Defined.

End RelayMore.

Module ParticipantMore.
Import Participant ParticipantFacts.

Section Sound.
Context {I : Ctx → Prop} {L : Effect → Prop}.

Lemma sound_ret {A} (a : A) : sound I L (ret a).
Proof. intros c H. split; [exact H|constructor]. Qed.

Lemma sound_throw {A} : sound I L (@throw A).
Proof. intros c H. split; [exact H|constructor]. Qed.

Lemma sound_effect e : L e → sound I L (effect e).
Proof. intros He c H. split; [exact H|]. by repeat constructor. Qed.

Lemma sound_modify f : (∀ c, I c → I (f c)) → sound I L (modify f).
Proof. intros Hf c H. split; [by apply Hf|constructor]. Qed.

Lemma sound_bind {A B} (m : M A) (k : A → M B) :
  sound I L m → (∀ a, sound I L (k a)) → sound I L (bind m k).
Proof.
  intros Hm Hk c H. unfold bind. destruct (Hm c H) as [H1 H2].
  destruct (m c) as [[[a|] c1] l1]; simpl in *; [|by split].
  destruct (Hk a c1 H1) as [H3 H4].
  destruct (k a c1) as [[o c2] l2]. simpl in *.
  split; [exact H3|]. apply Forall_app. by split.
Qed.

Lemma sound_get_bind {B} (k : Ctx → M B) :
  (∀ c0, I c0 → sound I L (k c0)) → sound I L (bind get k).
Proof. intros Hk c H. rewrite bind_get. by apply Hk. Qed.

Lemma sound_try_catch {A} (body handler : M A) :
  sound I L body → sound I L handler → sound I L (try_catch body handler).
Proof.
  intros Hb Hh c H. unfold try_catch. destruct (Hb c H) as [H1 H2].
  destruct (body c) as [[[a|] c1] l1]; simpl in *; [by split|].
  destruct (Hh c1 H1) as [H3 H4].
  destruct (handler c1) as [[o c2] l2]. simpl in *.
  split; [exact H3|]. apply Forall_app. by split.
Qed.

Lemma sound_when b m : sound I L m → sound I L (when b m).
Proof. intros H. destruct b; [exact H|apply sound_ret]. Qed.

Lemma sound_stop_tracks K ts :
  (∀ t, L (TrackStop t)) → sound I L (stop_tracks K ts).
Proof.
  intros HL. induction ts as [|t rest IH]; [apply sound_ret|].
  simpl. apply sound_bind; [|intros _; exact IH].
  apply sound_bind; [by apply sound_effect|].
  intros _. apply sound_when, sound_throw.
Qed.

End Sound.

(** Conditions under which every cleanup keeps [I] and logs within [L]. *)
Lemma sound_handleCallEnd (I : Ctx → Prop) (L : Effect → Prop) K cap :
  (∀ c b, I c → I (with_callEnded b c)) →
  (∀ c b, I c → I (with_callAccepted b c)) →
  (∀ c b, I c → I (with_isCalling b c)) →
  (∀ c, I c → I (with_connectionRef None c)) →
  (∀ c, I c → I (with_userStream None c)) →
  (∀ c, I c → I (with_call NoCall c)) →
  (∀ c p, I c → connectionRef c = Some p → L (PeerDestroy p)) →
  (∀ t, L (TrackStop t)) →
  sound I L (handleCallEnd K cap).
Proof.
  intros H1 H2 H3 H4 H5 H6 HD HS. unfold handleCallEnd.
  apply sound_bind; [apply sound_modify; auto|]. intros _.
  apply sound_bind; [apply sound_modify; auto|]. intros _.
  apply sound_bind; [apply sound_modify; auto|]. intros _.
  apply sound_try_catch; [|apply sound_ret].
  apply sound_get_bind. intros c0 Hc0.
  apply sound_bind.
  { destruct (connectionRef c0) as [p|] eqn:E; [|apply sound_ret].
    apply sound_bind; [|intros _; apply sound_modify; auto].
    apply sound_bind; [apply sound_effect; eauto|].
    intros _. apply sound_when, sound_throw. }
  intros _. apply sound_bind.
  { destruct (cap_stream cap); [by apply sound_stop_tracks|apply sound_ret]. }
  intros _. apply sound_bind.
  { destruct (cap_userStream cap); [by apply sound_stop_tracks|apply sound_ret]. }
  intros _. apply sound_bind; [apply sound_modify; auto|].
  intros _. apply sound_modify; auto.
Qed.


Section Closed.
Context (I : Ctx → Prop) (L : Effect → Prop) (K : Collab).
Hypothesis I_callEnded : ∀ c b, I c → I (with_callEnded b c).
Hypothesis I_callAccepted : ∀ c b, I c → I (with_callAccepted b c).
Hypothesis I_isCalling : ∀ c b, I c → I (with_isCalling b c).
Hypothesis I_userStream : ∀ c s, I c → I (with_userStream s c).
Hypothesis I_call : ∀ c x, I c → I (with_call x c).
Hypothesis I_status : ∀ c x, I c → I (with_connectionStatus x c).
Hypothesis I_name : ∀ c x, I c → I (with_name x c).
Hypothesis I_me : ∀ c id, id ≠ "" → I c → I (with_me id c).
Hypothesis I_ref_none : ∀ c, I c → I (with_connectionRef None c).
Hypothesis I_new_peer : ∀ c pr, I c → I (with_peers (peers c ++ [pr]) c).
Hypothesis I_new_set : ∀ c pr, I c →
  I (with_connectionRef (Some (length (peers c))) (with_peers (peers c ++ [pr]) c)).
Hypothesis I_commit : ∀ c, I c → I (commit c).
Hypothesis L_alert : ∀ m, L (Alert m).
Hypothesis L_new : ∀ p, L (NewPeer p).
Hypothesis L_signal : ∀ p v, L (PeerSignal p v).
Hypothesis L_stop : ∀ t, L (TrackStop t).
Hypothesis L_destroy : ∀ c p, I c → connectionRef c = Some p → L (PeerDestroy p).

Lemma sound_new_set ini tr s ls :
  sound I L (bind (new_Peer K ini tr s ls)
                  (λ p, modify (with_connectionRef (Some p)))).
Proof.
  intros c H. unfold new_Peer. unfold_m. destruct (new_throws K _); simpl.
  - split; [exact H|constructor].
  - split; [by apply I_new_set|]. repeat constructor. apply L_new.
Qed.

Lemma sound_new_signal_set ini tr s ls v :
  sound I L (bind (new_Peer K ini tr s ls)
                  (λ p, bind (peer_signal K p v)
                             (λ _, modify (with_connectionRef (Some p))))).
Proof.
  intros c H. unfold new_Peer, peer_signal. unfold_m.
  destruct (new_throws K _); simpl; [split; [exact H|constructor]|].
  destruct (signal_throws K _ _); simpl.
  - split; [by apply I_new_peer|]. repeat constructor; auto.
  - split; [by apply I_new_set|]. repeat constructor; auto.
Qed.

Ltac sound_auto :=
  repeat first
    [ apply sound_ret
    | apply sound_throw
    | apply sound_new_set
    | apply sound_new_signal_set
    | apply sound_handleCallEnd; eauto
    | apply sound_bind; [|intros ?]
    | apply sound_get_bind; intros ? ?
    | apply sound_try_catch
    | match goal with
      | |- sound _ _ (when ?b _) => destruct b eqn:?; simpl when
      end
    | apply sound_modify; intros; eauto
    | apply sound_effect; eauto
    | apply sound_stop_tracks; eauto
    | match goal with
      | |- sound _ _ (match ?x with _ => _ end) => destruct x eqn:?
      end ].

Lemma sound_handler ev :
  side_condition I L ev → sound I L (handler K ev).
Proof.
  destruct ev; intros Hside; simpl in Hside; simpl;
    unfold on_connect, on_disconnect, on_connect_error, on_me, on_callUser,
      on_callAccepted, on_callEnded, on_callError, closeVideo, callUser,
      answerCall, leaveCall, peer_on_signal, peer_on_stream, peer_on_connect,
      peer_on_error.
  all: sound_auto.
  all: apply I_me; [|assumption]; intros ->; discriminate.
Qed.

Lemma sound_step ev c :
  side_condition I L ev → I c →
  I (step K ev c).1 ∧ Forall L (step K ev c).2.
Proof.
  intros Hside H. destruct (sound_handler ev Hside c H) as [H1 H2].
  unfold step. destruct (handler K ev c) as [[o c'] l]. simpl in *.
  split; [by apply I_commit|exact H2].
Qed.

Lemma sound_run evs : ∀ c,
  (∀ ev, ev ∈ evs → side_condition I L ev) → I c →
  I (run K evs c).1 ∧ Forall L (run K evs c).2.
Proof.
  induction evs as [|ev rest IH]; intros c Hside H.
  - split; [exact H|constructor].
  - destruct (sound_step ev c) as [H1 H2]; [apply Hside; left|exact H|].
    simpl. destruct (step K ev c) as [c1 l1]. simpl in *.
    destruct (IH c1) as [H3 H4]; [intros; apply Hside; by right|exact H1|].
    destruct (run K rest c1) as [c2 l2]. simpl in *.
    split; [exact H3|]. apply Forall_app. by split.
Qed.

End Closed.


(** [connectionRef.current] always points at a peer that was created. *)
Lemma connectionRef_in_range (K : Collab) (evs : list Event) :
  well_formed (run K evs init).1.
Proof.
  apply (sound_run well_formed (λ _, True) K); try done.
  - intros c pr H p Hp. simpl in *. rewrite length_app.
    specialize (H p Hp). lia.
  - intros c pr H p [= <-]. simpl. rewrite length_app. simpl. lia.
  - intros ev _. destruct ev; simpl; done.
Qed.

Lemma overwritten_run (K : Collab) (evs : list Event) (c : Ctx) (p0 : nat) :
  overwritten p0 c →
  overwritten p0 (run K evs c).1 ∧
  Forall (λ e, e ≠ PeerDestroy p0) (run K evs c).2.
Proof.
  apply (sound_run (overwritten p0) (λ e, e ≠ PeerDestroy p0) K); try done.
  - intros c' [H1 H2]. split; [exact H1|]. simpl. discriminate.
  - intros c' pr [H1 H2]. split; [|exact H2]. simpl. rewrite length_app. lia.
  - intros c' pr [H1 H2]. split; simpl.
    + rewrite length_app. lia.
    + intros [= E]. lia.
  - intros c' p [H1 H2] Hp [= ->]. congruence.
  - intros ev _. destruct ev; simpl; done.
Qed.

(** X8. The [stream] cell is written only by [setStream] and
    [closeVideo]: over any sequence of other events (calls, answers,
    hangups, peer errors, broadcasts), whatever the collaborators do,
    the local stream held is the one held before. *)
Theorem stream_written_only_by_video_toggle (K : Collab) (evs : list Event) (c : Ctx) :
  (∀ ev, ev ∈ evs → writes_stream ev = false) →
  stream (run K evs c).1 = stream c.
Proof.
  intros Hevs.
  apply (sound_run (λ c', stream c' = stream c) (λ _, True) K); try done.
  intros ev Hev. specialize (Hevs ev Hev). destruct ev; simpl; done.
Qed.

(** X9. Once the participant has an id, no event takes it away: [me]
    is never set back to the empty string (the ["me"] and ["connect"]
    listeners ignore an empty id). *)
Theorem me_never_reset (K : Collab) (evs : list Event) (c : Ctx) :
  me c ≠ "" → me (run K evs c).1 ≠ "".
Proof.
  apply (sound_run (λ c', me c' ≠ "") (λ _, True) K); try done.
  intros ev _. destruct ev; simpl; done.
Qed.

(** X10. The provider sends on the socket only from the ['signal']
    listener of a peer: a sequence of events without such a signal
    emits nothing, whatever the collaborators do. *)
Theorem only_peer_signals_emit (K : Collab) (evs : list Event) (c : Ctx) :
  (∀ ev, ev ∈ evs → is_peer_signal ev = false) →
  ∀ e, e ∈ (run K evs c).2 → is_emit e = false.
Proof.
  intros Hevs.
  apply Forall_forall.
  apply (sound_run (λ _, True) (λ e, is_emit e = false) K); try done.
  intros ev Hev. specialize (Hevs ev Hev). destruct ev; simpl; done.
Qed.


(** ** Exceptions *)
Lemma returns_ret : returns (ret tt).
Proof. intros c. by exists c, []. Qed.

Lemma returns_modify f : returns (modify f).
Proof. intros c. by exists (f c), []. Qed.

Lemma returns_effect e : returns (effect e).
Proof. intros c. by exists c, [e]. Qed.

Lemma returns_bind (m : M unit) (k : unit → M unit) :
  returns m → (∀ a, returns (k a)) → returns (bind m k).
Proof.
  intros Hm Hk c. unfold bind. destruct (Hm c) as (c1 & l1 & ->).
  destruct (Hk tt c1) as (c2 & l2 & ->). eauto.
Qed.

Lemma returns_get_bind (k : Ctx → M unit) :
  (∀ c0, returns (k c0)) → returns (bind get k).
Proof. intros H c. rewrite bind_get. apply H. Qed.

Lemma returns_try_catch (body handler : M unit) :
  returns handler → returns (try_catch body handler).
Proof.
  intros H c.
  destruct (try_catch_returns body handler c) as ([] & c' & l & E); [|eauto].
  intros c1. destruct (H c1) as (c2 & l2 & E). eauto.
Qed.

Lemma returns_when b m : returns m → returns (when b m).
Proof. intros H. destruct b; [exact H|apply returns_ret]. Qed.

Lemma returns_handleCallEnd K cap : returns (handleCallEnd K cap).
Proof. intros c. apply handleCallEnd_returns. Qed.

Ltac returns_auto :=
  repeat first
    [ apply returns_ret
    | apply returns_handleCallEnd
    | apply returns_try_catch
    | apply returns_bind; [|intros ?]
    | apply returns_get_bind; intros ?
    | apply returns_when
    | apply returns_modify
    | apply returns_effect
    | match goal with
      | |- returns (match ?x with _ => _ end) => destruct x
      end ].

(** X11. Every handler but the ["callAccepted"] listener ends without
    an exception, whatever the collaborators do. The ["callAccepted"]
    listener lets the exception of [peer.signal] out, with
    [callAccepted] already set. *)
Theorem only_callAccepted_can_throw (K : Collab) (ev : Event) (c : Ctx) :
  ((∀ s, ev ≠ SockCallAccepted s) →
   ∃ c' l, handler K ev c = (Ret tt, c', l)) ∧
  (∀ s p, ev = SockCallAccepted s → connectionRef c = Some p →
          signal_throws K p s = true →
          handler K ev c = (Throw, with_callAccepted true c, [PeerSignal p s])).
Proof.
  split.
  - intros Hne. revert c.
    change (returns (handler K ev)).
    destruct ev; simpl;
      unfold on_connect, on_disconnect, on_connect_error, on_me, on_callUser,
        on_callEnded, on_callError, closeVideo, callUser,
        answerCall, leaveCall, peer_on_signal, peer_on_stream, peer_on_connect,
        peer_on_error;
      try (by destruct (Hne signal)).
    all: returns_auto.
  - intros s p -> Hp Ht. simpl. unfold on_callAccepted, peer_signal.
    rewrite bind_modify, bind_get. simpl. rewrite Hp. unfold_m. rewrite Ht.
    reflexivity.
Qed.

Lemma only_callAccepted_can_throw_witness :
  ∃ c' l, handler quiet UiLeaveCall ready_A = (Ret tt, c', l).
Proof.
  apply (only_callAccepted_can_throw quiet UiLeaveCall ready_A).
  intros s. discriminate.
Defined.

(** X12. The ["callEnded"] listener stops no track: its only possible
    effect is the [destroy] of the current peer, and [stream] is left
    as it is. (It runs the cleanup of the first render, which holds no
    stream.) *)
Theorem callEnded_stops_no_track (K : Collab) (c : Ctx) (d : JsVal) :
  (step K (SockCallEnded d) c).2 = (if isInCall c then destroyed c else []) ∧
  stream (step K (SockCallEnded d) c).1 = stream c.
Proof.
  split.
  - unfold step. simpl. unfold on_callEnded. rewrite bind_get.
    destruct (isInCall c); [|reflexivity].
    unfold handleCallEnd. rewrite !bind_modify. unfold try_catch.
    rewrite bind_get. unfold destroyed, first_render. simpl.
    destruct (connectionRef c) as [p|]; simpl.
    + unfold peer_destroy. unfold_m. destruct (destroy_throws K p); reflexivity.
    + reflexivity.
  - unfold step. simpl. unfold on_callEnded. rewrite bind_get.
    destruct (isInCall c); [|reflexivity].
    pose proof (handleCallEnd_keeps_stream K first_render c) as H.
    destruct (handleCallEnd K first_render c) as [[o c'] l]. exact H.
Qed.

(** X13. Without a local stream, or without a signal in the call
    record, [answerCall] returns with the state untouched: no peer is
    created and nothing is sent; at most the camera alert is shown. *)
Theorem answerCall_needs_stream_and_offer (K : Collab) (c : Ctx) :
  stream c = None ∨ truthy (call_signal (call c)) = false →
  ∃ l, answerCall K c = (Ret tt, c, l) ∧ only_alerts l.
Proof.
  intros H. unfold answerCall. rewrite bind_get.
  destruct (stream c) as [s|].
  - destruct H as [H|H]; [discriminate|]. rewrite H. simpl.
    exists []. split; [reflexivity|apply only_alerts_nil].
  - eexists. split; [reflexivity|apply only_alerts_one].
Qed.

Lemma answerCall_needs_stream_and_offer_witness :
  ∃ l, answerCall quiet ready_B = (Ret tt, ready_B, l) ∧ only_alerts l.
Proof.
  apply (answerCall_needs_stream_and_offer quiet ready_B).
  right. reflexivity.
Defined.

(** X14. The listeners for the socket's own state (connect,
    disconnect, connect error, id assignment) have no effect and write
    only [me] and [connectionStatus]: a transport loss in the middle of
    a call leaves the call as it is. *)
Theorem transport_events_leave_the_call (K : Collab) (ev : Event) (c : Ctx) :
  transport ev = true →
  (step K ev c).2 = [] ∧
  (step K ev c).1 =
    with_connectionStatus (connectionStatus (step K ev c).1)
      (with_me (me (step K ev c).1) (commit c)) ∧
  (idle (step K ev c).1 ↔ idle c).
Proof.
  intros Ht. destruct ev; try discriminate Ht; destruct c; unfold step; simpl;
    unfold on_connect, on_disconnect, on_connect_error, on_me; unfold_m; simpl.
  - destruct socket_id as [id|]; simpl; [destruct (String.eqb id "")|];
      simpl; split_and!; reflexivity.
  - destruct (String.eqb reason _); simpl; split_and!; reflexivity.
  - split_and!; reflexivity.
  - destruct (String.eqb id ""); simpl; split_and!; reflexivity.
Qed.

Lemma transport_events_leave_the_call_witness :
  (step quiet (SockDisconnect "transport close") ready_A).2 = [].
Proof.
  apply (transport_events_leave_the_call quiet (SockDisconnect "transport close") ready_A).
  reflexivity.
Defined.


Ltac run_handlers :=
  unfold step; simpl;
  unfold callUser, answerCall, leaveCall, closeVideo, on_callUser,
    on_callAccepted, on_callError, peer_on_signal, peer_on_stream,
    peer_on_connect, peer_on_error, new_Peer, peer_signal;
  unfold_m; simpl.

(** What a [callUser] that passes the checks leaves behind. *)
Lemma callUser_success (K : Collab) (c : Ctx) (s : Stream) (id : string) :
  stream c = Some s →
  (String.eqb id "" || is_blank id) = false →
  String.eqb id (me c) = false →
  new_throws K (length (peers c)) = false →
  (step K (UiCallUser id) c).2 = [NewPeer (length (peers c))] ∧
  peers (step K (UiCallUser id) c).1 = peers c ++
    [mkPeer true false s (CallerListeners id (me c) (name c) (this_render c))] ∧
  connectionRef (step K (UiCallUser id) c).1 = Some (length (peers c)).
Proof.
  intros Hs Hid Hme Hnew. destruct c. simpl in *. subst.
  run_handlers. rewrite Hid, Hme. simpl. rewrite Hnew. simpl.
  split_and!; reflexivity.
Qed.

(** X15. A call that passes the checks creates one initiator peer
    over the local stream, with trickle off, records it in
    [connectionRef] and sets [isCalling]; nothing is sent until the peer
    signals. The offer then goes out with the callee's id, the signal,
    the caller's id, and the caller's name or "Anonymous". *)
Theorem callUser_offer (K : Collab) (c : Ctx) (s : Stream) (id : string) :
  stream c = Some s →
  (String.eqb id "" || is_blank id) = false →
  String.eqb id (me c) = false →
  new_throws K (length (peers c)) = false →
  let p := length (peers c) in
  let c1 := (step K (UiCallUser id) c).1 in
  (step K (UiCallUser id) c).2 = [NewPeer p] ∧
  peers c1 = peers c ++
    [mkPeer true false s (CallerListeners id (me c) (name c) (this_render c))] ∧
  connectionRef c1 = Some p ∧ isCalling c1 = true ∧ callEnded c1 = false ∧
  ∀ data,
    (step K (PeerOnSignal p data) c1).2 =
      [SocketEmit (EmitCallUser id data (me c)
                     (if String.eqb (name c) "" then "Anonymous" else name c))].
Proof.
  intros Hs Hid Hme Hnew. cbv zeta. destruct c. simpl in *. subst.
  run_handlers. rewrite Hid, Hme. simpl. rewrite Hnew. simpl.
  split_and!; try reflexivity.
  intros data. run_handlers.
  rewrite lookup_app_r by lia. rewrite Nat.sub_diag. reflexivity.
Qed.

Lemma callUser_offer_witness :
  (step quiet (PeerOnSignal 0 (JStr "OFFER"))
     (step quiet (UiCallUser "B2") ready_A).1).2 =
    [SocketEmit (EmitCallUser "B2" (JStr "OFFER") "A1" "Alice")].
Proof.
  pose proof (callUser_offer quiet ready_A cam_A "B2"
                eq_refl eq_refl eq_refl eq_refl) as H.
  cbv zeta in H. destruct H as (_ & _ & _ & _ & _ & H).
  exact (H (JStr "OFFER")).
Defined.

(** X16. A second incoming offer silently replaces the first: nothing
    is sent to either caller, and accepting answers the second offer,
    the answer being addressed to the second caller. *)
Theorem latest_offer_wins (K : Collab) (c : Ctx) (s : Stream)
    (f1 n1 s1 f2 n2 s2 : JsVal) :
  stream c = Some s → truthy s2 = true →
  new_throws K (length (peers c)) = false →
  signal_throws K (length (peers c)) s2 = false →
  let p := length (peers c) in
  let c2 := (run K [SockCallUser f1 n1 s1; SockCallUser f2 n2 s2] c).1 in
  (run K [SockCallUser f1 n1 s1; SockCallUser f2 n2 s2] c).2 = [] ∧
  call c2 = Incoming f2 n2 s2 ∧
  (step K UiAnswerCall c2).2 = [NewPeer p; PeerSignal p s2] ∧
  ∀ data,
    (step K (PeerOnSignal p data) (step K UiAnswerCall c2).1).2 =
      [SocketEmit (EmitAnswerCall data f2)].
Proof.
  intros Hs Ht Hnew Hsig. cbv zeta. destruct c. simpl in *. subst.
  run_handlers. rewrite Ht. simpl. rewrite Hnew. simpl. rewrite Hsig. simpl.
  split_and!; try reflexivity.
  intros data. run_handlers.
  rewrite lookup_app_r by lia. rewrite Nat.sub_diag. reflexivity.
Qed.

Lemma latest_offer_wins_witness :
  (step quiet UiAnswerCall
     (run quiet [SockCallUser (JStr "A1") (JStr "Alice") (JStr "OFFER-1");
                 SockCallUser (JStr "C3") (JStr "Carol") (JStr "OFFER-2")]
        ready_B).1).2 =
    [NewPeer 0; PeerSignal 0 (JStr "OFFER-2")].
Proof.
  pose proof (latest_offer_wins quiet ready_B cam_B
                (JStr "A1") (JStr "Alice") (JStr "OFFER-1")
                (JStr "C3") (JStr "Carol") (JStr "OFFER-2")
                eq_refl eq_refl eq_refl eq_refl) as H.
  cbv zeta in H. destruct H as (_ & _ & H & _). exact H.
Defined.

(** X17. Calling again while [connectionRef] holds a peer overwrites
    the reference without destroying that peer, and no later event
    destroys it. *)
Theorem overwritten_peer_never_destroyed (K : Collab) (before after : list Event)
    (s : Stream) (id : string) (p0 : nat) :
  let c := (run K before init).1 in
  connectionRef c = Some p0 →
  stream c = Some s →
  (String.eqb id "" || is_blank id) = false →
  String.eqb id (me c) = false →
  new_throws K (length (peers c)) = false →
  connectionRef (step K (UiCallUser id) c).1 = Some (length (peers c)) ∧
  PeerDestroy p0 ∉ (run K (UiCallUser id :: after) c).2.
Proof.
  intros c Hp0 Hs Hid Hme Hnew.
  pose proof (connectionRef_in_range K before p0 Hp0) as Hwf. fold c in Hwf.
  destruct (callUser_success K c s id Hs Hid Hme Hnew) as (Hl & Hpeers & Href).
  split; [exact Href|].
  assert (Hov : overwritten p0 (step K (UiCallUser id) c).1).
  { split.
    - rewrite Hpeers, length_app. lia.
    - rewrite Href. intros [= E]. lia. }
  destruct (overwritten_run K after _ p0 Hov) as [_ Hlog].
  simpl. destruct (step K (UiCallUser id) c) as [c1 l1]. simpl in *.
  destruct (run K after c1) as [c2 l2]. simpl in *.
  rewrite elem_of_app. intros [Hin | Hin].
  - rewrite Hl in Hin. apply list_elem_of_singleton in Hin. discriminate Hin.
  - rewrite Forall_forall in Hlog. by apply (Hlog _ Hin).
Qed.

Lemma overwritten_peer_never_destroyed_witness :
  PeerDestroy 0 ∉
    (run quiet [UiCallUser "C3"; UiLeaveCall; UiLeaveCall]
       (run quiet [SockMe "A1"; UiSetStream (Some cam_A); UiCallUser "B2"] init).1).2.
Proof.
  apply (overwritten_peer_never_destroyed quiet
           [SockMe "A1"; UiSetStream (Some cam_A); UiCallUser "B2"]
           [UiLeaveCall; UiLeaveCall] cam_A "C3" 0); reflexivity.
Defined.

Lemma stop_tracks_throws K ts c :
  (∃ t, t ∈ ts ∧ stop_throws K t = true) →
  ∃ l, stop_tracks K ts c = (Throw, c, l).
Proof.
  induction ts as [|t rest IH]; intros (t0 & Hin & Ht).
  - inversion Hin.
  - simpl. unfold track_stop. unfold_m.
    destruct (stop_throws K t) eqn:E; [eauto|].
    apply elem_of_cons in Hin as [-> | Hin]; [congruence|].
    destruct IH as (l & ->); eauto.
Qed.

(** X18. [closeVideo] stops each local track once and clears
    [stream], after which [answerCall] and [callUser] are refused with
    the camera alert. If a [stop] throws, [stream] is not cleared. *)
Theorem closeVideo_releases_camera (K : Collab) (c : Ctx) :
  ((∀ t, t ∈ tracks_of (stream c) → stop_throws K t = false) →
   step K UiCloseVideo c =
     (commit (with_stream None c), TrackStop <$> tracks_of (stream c)) ∧
   (step K UiAnswerCall (step K UiCloseVideo c).1).2 = [camera_alert] ∧
   ∀ id, (String.eqb id "" || is_blank id) = false →
         (step K (UiCallUser id) (step K UiCloseVideo c).1).2 = [camera_alert]) ∧
  ((∃ t, t ∈ tracks_of (stream c) ∧ stop_throws K t = true) →
   (step K UiCloseVideo c).1 = commit c).
Proof.
  split.
  - intros Hs.
    assert (E : step K UiCloseVideo c =
      (commit (with_stream None c), TrackStop <$> tracks_of (stream c))).
    { unfold step. simpl. unfold closeVideo. rewrite bind_get.
      unfold try_catch, bind. destruct (stream c) as [s|]; simpl in *.
      - rewrite stop_tracks_calm by exact Hs. simpl. by rewrite app_nil_r.
      - reflexivity. }
    rewrite E. split; [reflexivity|]. split.
    + destruct c. run_handlers. reflexivity.
    + intros id Hid. destruct c. run_handlers. rewrite Hid. reflexivity.
  - intros Ht. unfold step. simpl. unfold closeVideo. rewrite bind_get.
    unfold try_catch, bind. destruct (stream c) as [s|]; simpl in *.
    + destruct (stop_tracks_throws K (getTracks s) c Ht) as (l & ->). reflexivity.
    + destruct Ht as (t & Hin & _). inversion Hin.
Qed.

Lemma closeVideo_releases_camera_witness :
  (step quiet (UiCallUser "B2") (step quiet UiCloseVideo ready_A).1).2 =
    [camera_alert].
Proof.
  destruct (closeVideo_releases_camera quiet ready_A) as [H _].
  destruct H as (_ & _ & H); [intros t _; reflexivity|].
  exact (H "B2" eq_refl).
Defined.

(** X19. When answering fails, the cleanup runs: the pending offer is
    dropped and the local tracks are stopped. If the failure is in
    [peer.signal], the peer just created is not recorded in
    [connectionRef] and is never destroyed. *)
Theorem answerCall_failure (K : Collab) (c : Ctx) (s : Stream) :
  stream c = Some s → truthy (call_signal (call c)) = true → calm K →
  let p := length (peers c) in
  let stops := (TrackStop <$> getTracks s) ++ (TrackStop <$> tracks_of (userStream c)) in
  (new_throws K p = true →
   step K UiAnswerCall c =
     (commit (cleaned c),
      Alert "Failed to answer call. Please try again." :: destroyed c ++ stops)) ∧
  (new_throws K p = false → signal_throws K p (call_signal (call c)) = true →
   (step K UiAnswerCall c).2 =
     NewPeer p :: PeerSignal p (call_signal (call c)) ::
     Alert "Failed to answer call. Please try again." :: destroyed c ++ stops ∧
   connectionRef (step K UiAnswerCall c).1 = None ∧
   call (step K UiAnswerCall c).1 = NoCall ∧
   length (peers (step K UiAnswerCall c).1) = S p ∧
   ∀ evs, Forall (λ e, e ≠ PeerDestroy p)
            (run K evs (step K UiAnswerCall c).1).2).
Proof.
  intros Hs Ht [Hd Hst]. cbv zeta. destruct c. simpl in *. subst.
  destruct call0 as [|f n sig]; [discriminate Ht|]. simpl in Ht. split.
  - intros Hnew. run_handlers. rewrite Ht. simpl. rewrite Hnew. simpl.
    rewrite handleCallEnd_calm by auto. reflexivity.
  - intros Hnew Hsig. simpl in Hsig. run_handlers. rewrite Ht. simpl. rewrite Hnew. simpl. rewrite Hsig. simpl.
    rewrite handleCallEnd_calm by auto. simpl.
    split_and!; try reflexivity; [rewrite length_app; simpl; lia|].
    intros evs. apply overwritten_run. split; simpl.
    + rewrite length_app. simpl. lia.
    + discriminate.
Qed.

Lemma answerCall_failure_witness :
  (step (mkCollab (λ _, true) (λ _ _, false) (λ _, false) (λ _, false))
        UiAnswerCall
        (step quiet (SockCallUser (JStr "A1") (JStr "Alice") (JStr "OFFER")) ready_B).1).2 =
    [Alert "Failed to answer call. Please try again.";
     TrackStop (mkTrack 21 "video"); TrackStop (mkTrack 22 "audio")].
Proof.
  pose proof (answerCall_failure
    (mkCollab (λ _, true) (λ _ _, false) (λ _, false) (λ _, false))
    (step quiet (SockCallUser (JStr "A1") (JStr "Alice") (JStr "OFFER")) ready_B).1
    cam_B eq_refl eq_refl (conj (λ _, eq_refl) (λ _, eq_refl))) as H.
  cbv zeta in H. destruct H as [H _]. rewrite (H eq_refl). reflexivity.
Defined.


(** X20. An ['error'] of any peer ever created runs the cleanup
    against the current state: it destroys the peer that
    [connectionRef] holds now and stops the tracks of the streams that
    were held when the erroring peer was created; a remote stream that
    arrived later is dropped without its tracks being stopped. *)
Theorem peer_error_cleanup (K : Collab) (c : Ctx) (p : nat) (pr : Peer) :
  calm K → peers c !! p = Some pr →
  step K (PeerOnError p) c =
    (commit (cleaned c),
     Alert "Connection error occurred. Please try again." ::
     destroyed c ++
     (TrackStop <$> tracks_of (cap_stream (hce_of (listeners pr)))) ++
     (TrackStop <$> tracks_of (cap_userStream (hce_of (listeners pr))))).
Proof.
  intros [Hd Hs] Hp. unfold step. simpl. unfold peer_on_error.
  rewrite bind_get, Hp. simpl.
  destruct (listeners pr) as [id me0 nm hce | f hce]; simpl.
  - unfold bind at 1. unfold effect at 1. rewrite bind_modify.
    rewrite handleCallEnd_calm by auto. simpl. destruct c; reflexivity.
  - unfold bind at 1. unfold effect at 1.
    rewrite handleCallEnd_calm by auto. reflexivity.
Qed.

Lemma peer_error_cleanup_witness :
  (step quiet (PeerOnError 0)
     (run quiet [UiCallUser "B2"; PeerOnStream 0 cam_B] ready_A).1).2 =
    [Alert "Connection error occurred. Please try again."; PeerDestroy 0;
     TrackStop (mkTrack 11 "video"); TrackStop (mkTrack 12 "audio")].
Proof.
  rewrite (peer_error_cleanup quiet
             (run quiet [UiCallUser "B2"; PeerOnStream 0 cam_B] ready_A).1 0
             (mkPeer true false cam_A
                (CallerListeners "B2" "A1" "Alice" (mkCaptured (Some cam_A) None)))
             (conj (λ _, eq_refl) (λ _, eq_refl)) eq_refl).
  reflexivity.
Defined.

Lemma me_never_reset_witness :
  me (run quiet [SockMe ""; SockConnect None; UiLeaveCall] ready_A).1 ≠ "".
Proof.
  apply (me_never_reset quiet [SockMe ""; SockConnect None; UiLeaveCall] ready_A).
  vm_compute. discriminate.
Defined.

Lemma stream_written_only_by_video_toggle_witness :
  stream (run quiet [UiCallUser "B2"; UiLeaveCall; SockCallEnded (JStr "B2")] ready_A).1 =
    Some cam_A.
Proof.
  apply (stream_written_only_by_video_toggle quiet
           [UiCallUser "B2"; UiLeaveCall; SockCallEnded (JStr "B2")] ready_A).
  intros ev Hev.
  repeat (apply elem_of_cons in Hev as [-> | Hev]; [reflexivity|]).
  inversion Hev.
Defined.

Lemma only_peer_signals_emit_witness :
  is_emit (PeerDestroy 0) = false.
Proof.
  apply (only_peer_signals_emit quiet [UiCallUser "B2"; UiLeaveCall] ready_A).
  - intros ev Hev.
    repeat (apply elem_of_cons in Hev as [-> | Hev]; [reflexivity|]).
    inversion Hev.
  - vm_compute. right. left.
Defined.

End ParticipantMore.

Module EndToEnd.
Import Participant ParticipantFacts ParticipantMore Wire.

Lemma relay_forwards_offer st sock dest s f n :
  dest ∈ Relay.sockets st →
  Relay.step (Relay.InCallUser sock (Relay.mkCallUserData (JStr dest) s f n)) st =
    (st, [(dest, Relay.CallUser s f n)]).
Proof.
  intros H. simpl. unfold Relay.on_callUser, Relay.io_to_emit. simpl.
  rewrite bool_decide_eq_true_2 by exact H. reflexivity.
Qed.

Lemma relay_forwards_answer st sock dest s :
  dest ∈ Relay.sockets st →
  Relay.step (Relay.InAnswerCall sock (Relay.mkAnswerData (JStr dest) s)) st =
    (st, [(dest, Relay.CallAccepted s)]).
Proof.
  intros H. simpl. unfold Relay.on_answerCall, Relay.io_to_emit. simpl.
  rewrite bool_decide_eq_true_2 by exact H. reflexivity.
Qed.

(** X21. Offer and answer across the relay. The offer signalled by the
    caller's peer reaches the callee unchanged with the caller's id and
    name; accepting feeds that very offer to the callee's peer; the
    answer signalled there reaches the caller unchanged and is fed to
    the peer that made the offer. *)
Theorem offer_answer_round_trip (K : Collab) (st : Relay.State)
    (cA cB : Ctx) (sA sB : Stream) (b : string) (offer answer : JsVal) :
  me cA ∈ Relay.sockets st → b ∈ Relay.sockets st →
  stream cA = Some sA → stream cB = Some sB →
  (String.eqb b "" || is_blank b) = false → String.eqb b (me cA) = false →
  truthy offer = true →
  new_throws K (length (peers cA)) = false →
  new_throws K (length (peers cB)) = false →
  signal_throws K (length (peers cB)) offer = false →
  let pA := length (peers cA) in
  let pB := length (peers cB) in
  let nm := if String.eqb (name cA) "" then "Anonymous" else name cA in
  let cA1 := (step K (UiCallUser b) cA).1 in
  let e1 := EmitCallUser b offer (me cA) nm in
  let d1 := Relay.CallUser offer (JStr (me cA)) (JStr nm) in
  let cB1 := (step K (to_participant d1) cB).1 in
  let cB2 := (step K UiAnswerCall cB1).1 in
  let e2 := EmitAnswerCall answer (JStr (me cA)) in
  let d2 := Relay.CallAccepted answer in
  let cA2 := (step K (PeerOnSignal pA offer) cA1).1 in
  (step K (PeerOnSignal pA offer) cA1).2 = [SocketEmit e1] ∧
  Relay.step (to_relay (me cA) e1) st = (st, [(b, d1)]) ∧
  call cB1 = Incoming (JStr (me cA)) (JStr nm) offer ∧
  (step K UiAnswerCall cB1).2 = [NewPeer pB; PeerSignal pB offer] ∧
  (step K (PeerOnSignal pB answer) cB2).2 = [SocketEmit e2] ∧
  Relay.step (to_relay b e2) st = (st, [(me cA, d2)]) ∧
  (step K (to_participant d2) cA2).2 = [PeerSignal pA answer] ∧
  callAccepted (step K (to_participant d2) cA2).1 = true.
Proof.
  intros HA HB HsA HsB Hb Hbme Htr HnA HnB Hsig. cbv zeta.
  split_and!.
  - destruct cA. simpl in *. subst. run_handlers.
    rewrite Hb, Hbme. simpl. rewrite HnA. simpl. run_handlers.
    rewrite lookup_app_r by lia. rewrite Nat.sub_diag. reflexivity.
  - apply relay_forwards_offer, HB.
  - reflexivity.
  - destruct cB. simpl in *. subst. run_handlers.
    rewrite Htr. simpl. rewrite HnB. simpl. rewrite Hsig. reflexivity.
  - destruct cB. simpl in *. subst. run_handlers.
    rewrite Htr. simpl. rewrite HnB. simpl. rewrite Hsig. simpl. run_handlers.
    rewrite lookup_app_r by lia. rewrite Nat.sub_diag. reflexivity.
  - apply relay_forwards_answer, HA.
  - destruct cA. simpl in *. subst. run_handlers.
    rewrite Hb, Hbme. simpl. rewrite HnA. simpl. run_handlers.
    rewrite lookup_app_r by lia. rewrite Nat.sub_diag. simpl.
    destruct (signal_throws K (length peers0) answer); reflexivity.
  - destruct cA. simpl in *. subst. run_handlers.
    rewrite Hb, Hbme. simpl. rewrite HnA. simpl. run_handlers.
    rewrite lookup_app_r by lia. rewrite Nat.sub_diag. simpl.
    destruct (signal_throws K (length peers0) answer); reflexivity.
Qed.


Lemma offer_answer_round_trip_witness :
  Relay.step (to_relay "A1" (EmitCallUser "B2" (JStr "OFFER") "A1" "Alice"))
    Relay.three_clients =
    (Relay.three_clients,
     [("B2", Relay.CallUser (JStr "OFFER") (JStr "A1") (JStr "Alice"))]) ∧
  (step quiet (to_participant (Relay.CallAccepted (JStr "ANSWER")))
     (step quiet (PeerOnSignal 0 (JStr "OFFER"))
        (step quiet (UiCallUser "B2") ready_A).1).1).2 =
    [PeerSignal 0 (JStr "ANSWER")].
Proof.
  assert (HA : "A1" ∈ Relay.sockets Relay.three_clients)
    by (apply (bool_decide_eq_true_1 _); vm_compute; reflexivity).
  assert (HB : "B2" ∈ Relay.sockets Relay.three_clients)
    by (apply (bool_decide_eq_true_1 _); vm_compute; reflexivity).
  pose proof (offer_answer_round_trip quiet Relay.three_clients ready_A ready_B
                cam_A cam_B "B2" (JStr "OFFER") (JStr "ANSWER")
                HA HB eq_refl eq_refl eq_refl eq_refl eq_refl
                eq_refl eq_refl eq_refl) as H.
  cbv zeta in H. destruct H as (_ & H2 & _ & _ & _ & _ & H7 & _).
  split; [exact H2 | exact H7].
Defined.

(** X22. Calling an id that is not connected: the relay answers the
    offer with a ["callError"] to the caller, who shows the alert and
    clears [isCalling] but keeps the peer handle, so that the in-call
    test still holds afterwards. *)
Theorem call_to_absent_peer (K : Collab) (st : Relay.State) (cA : Ctx)
    (sA : Stream) (z : string) (offer : JsVal) :
  z ∉ Relay.sockets st →
  stream cA = Some sA →
  (String.eqb z "" || is_blank z) = false → String.eqb z (me cA) = false →
  new_throws K (length (peers cA)) = false →
  let pA := length (peers cA) in
  let nm := if String.eqb (name cA) "" then "Anonymous" else name cA in
  let e1 := EmitCallUser z offer (me cA) nm in
  let d1 := Relay.CallError "User not found or disconnected" in
  let cA2 := (run K [UiCallUser z; PeerOnSignal pA offer] cA).1 in
  (run K [UiCallUser z; PeerOnSignal pA offer] cA).2 =
    [NewPeer pA; SocketEmit e1] ∧
  Relay.step (to_relay (me cA) e1) st = (st, [(me cA, d1)]) ∧
  (step K (to_participant d1) cA2).2 =
    [Alert "Call error: User not found or disconnected"] ∧
  isCalling (step K (to_participant d1) cA2).1 = false ∧
  connectionRef (step K (to_participant d1) cA2).1 = Some pA ∧
  isInCall (step K (to_participant d1) cA2).1 = true.
Proof.
  intros Hz Hs Hzb Hzme Hnew. cbv zeta.
  assert (Hrelay : Relay.step (to_relay (me cA)
            (EmitCallUser z offer (me cA)
               (if String.eqb (name cA) "" then "Anonymous" else name cA))) st =
          (st, [(me cA, Relay.CallError "User not found or disconnected")])).
  { simpl. unfold Relay.on_callUser. simpl.
    rewrite bool_decide_eq_false_2 by exact Hz. reflexivity. }
  destruct cA. simpl in *. subst. run_handlers.
  rewrite Hzb, Hzme. simpl. rewrite Hnew. simpl. run_handlers.
  rewrite lookup_app_r by lia. rewrite Nat.sub_diag. simpl.
  split_and!; try reflexivity.
  - exact Hrelay.
  - unfold isInCall. simpl. by rewrite !orb_true_r.
Qed.

Lemma call_to_absent_peer_witness :
  isInCall
    (step quiet (to_participant (Relay.CallError "User not found or disconnected"))
       (run quiet [UiCallUser "Z9"; PeerOnSignal 0 (JStr "OFFER")] ready_A).1).1 = true.
Proof.
  assert (HZ : "Z9" ∉ Relay.sockets Relay.three_clients)
    by (apply (bool_decide_eq_false_1 _); vm_compute; reflexivity).
  pose proof (call_to_absent_peer quiet Relay.three_clients ready_A cam_A "Z9"
                (JStr "OFFER") HZ eq_refl eq_refl eq_refl eq_refl) as H.
  cbv zeta in H. destruct H as (_ & _ & _ & _ & _ & H). exact H.
Defined.

End EndToEnd.
